(** * MythicMarketMogul: aggregation, synchronisation and scoring engine

    A shallow embedding of the EVE and OSRS market analysers
    (src/unnamed/part_000) and the properties their specification states
    about them.

    Conventions of the embedding.
    - A JavaScript number is a [number]: an exact rational ([Fin]) or one of
      the three non-finite values the code can produce itself
      ([PInf], [NInf], [NaN]); zero carries no sign.  The operations on
      [number] give the exact result; the module [Rounded] embeds the
      aggregator with the rounding of binary64 after every operation, for
      the weighted average, where rounding decides the property.
    - A JavaScript array is a [list]; an object used as a dictionary is a
      [gmap]; an object whose enumeration order the code relies on is an
      association list in [Object.keys] order.
    - Region and item identifiers are numeric keys ([N]); dates are strings
      compared the way [Array.prototype.sort] compares them by default. *)

From Stdlib Require Import QArith Qcanon ZArith String Ascii Lqa.
From Stdlib Require Import Qround Qpower.
From Stdlib Require Import DecimalString DecimalPos DecimalN.
From stdpp Require Import base numbers option list gmap strings sorting.

Local Open Scope Qc_scope.

(** ** JavaScript numbers *)

Module JsNum.

Inductive number : Type :=
  | Fin (q : Qc)
  | PInf
  | NInf
  | NaN.

#[global] Instance number_eq_dec : EqDecision number.
Proof. solve_decision. Defined.

#[global] Instance number_inhabited : Inhabited number := populate NaN.

(** Integer literals of the source. *)
Definition num (z : Z) : number := Fin (Qc_of_Z z).

Definition is_finite (x : number) : bool :=
  match x with Fin _ => true | _ => false end.

(** [x + y] *)
Definition js_add (x y : number) : number :=
  match x, y with
  | NaN, _ | _, NaN => NaN
  | Fin a, Fin b => Fin (a + b)
  | PInf, NInf | NInf, PInf => NaN
  | PInf, _ | _, PInf => PInf
  | NInf, _ | _, NInf => NInf
  end.

(** [-x] *)
Definition js_neg (x : number) : number :=
  match x with
  | Fin a => Fin (- a)
  | PInf => NInf
  | NInf => PInf
  | NaN => NaN
  end.

(** [x - y] *)
Definition js_sub (x y : number) : number := js_add x (js_neg y).

(** The infinity whose sign is the sign of [a]; [NaN] for zero. *)
Definition signed_inf (a : Qc) : number :=
  match a ?= 0 with
  | Gt => PInf
  | Lt => NInf
  | Eq => NaN
  end.

(** [x * y] *)
Definition js_mul (x y : number) : number :=
  match x, y with
  | NaN, _ | _, NaN => NaN
  | Fin a, Fin b => Fin (a * b)
  | Fin a, PInf | PInf, Fin a => signed_inf a
  | Fin a, NInf | NInf, Fin a => signed_inf (- a)
  | PInf, PInf | NInf, NInf => PInf
  | PInf, NInf | NInf, PInf => NInf
  end.

(** [x / y]: a finite dividend over zero is an infinity of the dividend's
    sign, and [0 / 0] is [NaN]; nothing is raised. *)
Definition js_div (x y : number) : number :=
  match x, y with
  | NaN, _ | _, NaN => NaN
  | Fin a, Fin b => if decide (b = 0) then signed_inf a else Fin (a / b)
  | Fin _, (PInf | NInf) => Fin 0
  | PInf, Fin b => if decide (b < 0) then NInf else PInf
  | NInf, Fin b => if decide (b < 0) then PInf else NInf
  | (PInf | NInf), (PInf | NInf) => NaN
  end.

(** [x < y]; every comparison with [NaN] is false. *)
Definition js_lt (x y : number) : bool :=
  match x, y with
  | NaN, _ | _, NaN => false
  | Fin a, Fin b => bool_decide (a < b)
  | NInf, (Fin _ | PInf) => true
  | Fin _, PInf => true
  | _, _ => false
  end.

(** [x <= y] *)
Definition js_le (x y : number) : bool :=
  match x, y with
  | NaN, _ | _, NaN => false
  | Fin a, Fin b => bool_decide (a ≤ b)
  | NInf, _ | _, PInf => true
  | _, _ => false
  end.

(** [x > y] and [x >= y] *)
Definition js_gt (x y : number) : bool := js_lt y x.
Definition js_ge (x y : number) : bool := js_le y x.

(** [Math.min(x, y)] and [Math.max(x, y)]: [NaN] if either argument is. *)
Definition Math_min (x y : number) : number :=
  match x, y with
  | NaN, _ | _, NaN => NaN
  | _, _ => if js_le x y then x else y
  end.

Definition Math_max (x y : number) : number :=
  match x, y with
  | NaN, _ | _, NaN => NaN
  | _, _ => if js_le x y then y else x
  end.

(** Truthiness of a number: [0] and [NaN] are falsy. *)
Definition truthy (x : number) : bool :=
  match x with
  | Fin a => bool_decide (a ≠ 0)
  | PInf | NInf => true
  | NaN => false
  end.

End JsNum.

Export JsNum.

Declare Scope js_scope.
Delimit Scope js_scope with js.
Bind Scope js_scope with number.
Infix "+" := js_add : js_scope.
Infix "-" := js_sub : js_scope.
Infix "*" := js_mul : js_scope.
Infix "/" := js_div : js_scope.
Infix "<?" := js_lt : js_scope.
Infix "<=?" := js_le : js_scope.
Infix ">?" := js_gt : js_scope.
Infix ">=?" := js_ge : js_scope.

(** ** Scoring engine: [calculateInvestmentScore] *)

Module Scoring.

(** The running [score] of [calculateInvestmentScore] just before the final
    [Math.max(0, Math.min(100, score))]. *)
Definition score_before_clamp (priceChange volatility momentum : number) : number :=
  let score := num 50 in
  let score :=
    if (volatility >=? num 20)%js then (score + num 30)%js
    else (score + (volatility / num 20) * num 30)%js in
  let score := (score + Math_min (momentum * num 3) (num 30))%js in
  let score :=
    if (priceChange >=? num 40)%js then (score + num 30)%js
    else if (priceChange >? num 0)%js then (score + (priceChange / num 40) * num 30)%js
    else score in
  let score :=
    if (momentum >? num 10)%js && (priceChange >? num 30)%js && (volatility >? num 15)%js
    then (score + num 10)%js
    else score in
  score.

Definition calculateInvestmentScore (priceChange volatility momentum : number) : number :=
  Math_max (num 0) (Math_min (num 100) (score_before_clamp priceChange volatility momentum)).

(** The reference formula of the specification (section 4.5), over the
    rationals, written from the specification's words: base 50, the three
    contributions, the breakout bonus, and the final clamp. *)
Definition Qc_min (a b : Qc) : Qc := if decide (a ≤ b) then a else b.
Definition Qc_max (a b : Qc) : Qc := if decide (a ≤ b) then b else a.
Definition clamp (x lo hi : Qc) : Qc := Qc_max lo (Qc_min hi x).

Definition volatility_contribution (v : Qc) : Qc :=
  if decide (Qc_of_Z 20 ≤ v) then Qc_of_Z 30 else v / Qc_of_Z 20 * Qc_of_Z 30.

Definition momentum_contribution (m : Qc) : Qc :=
  Qc_min (m * Qc_of_Z 3) (Qc_of_Z 30).

Definition price_change_contribution (pc : Qc) : Qc :=
  if decide (Qc_of_Z 40 ≤ pc) then Qc_of_Z 30
  else if decide (0 < pc) then pc / Qc_of_Z 40 * Qc_of_Z 30
  else 0.

Definition breakout_bonus (pc v m : Qc) : Qc :=
  if decide (Qc_of_Z 10 < m ∧ Qc_of_Z 30 < pc ∧ Qc_of_Z 15 < v) then Qc_of_Z 10 else 0.

Definition reference_sum (pc v m : Qc) : Qc :=
  Qc_of_Z 50 + volatility_contribution v + momentum_contribution m
  + price_change_contribution pc + breakout_bonus pc v m.

Definition reference_score (pc v m : Qc) : Qc :=
  clamp (reference_sum pc v m) 0 (Qc_of_Z 100).

End Scoring.

(** ** Market history entries *)

(** One element of an ESI market-history array, which is also the shape of
    the aggregated points [aggregateRegionData] returns. *)
Record entry : Type := Entry {
  date : string;
  average : number;
  highest : number;
  lowest : number;
  volume : number;
  order_count : number
}.

#[global] Instance entry_eq_dec : EqDecision entry.
Proof. solve_decision. Defined.

(** Reading past the end of an array gives [undefined], whose numeric
    fields behave as [NaN]; the accesses modelled below are all in range. *)
#[global] Instance entry_inhabited : Inhabited entry :=
  populate (Entry "" NaN NaN NaN NaN NaN).

(** A point with a finite price and a finite, non-negative volume. *)
Definition tradable (e : entry) : Prop :=
  ∃ a v : Qc, average e = Fin a ∧ volume e = Fin v ∧ 0 ≤ v.

(** ** Statistics engine *)

Module Stats.

(** [arr.reduce((a, b) => a + b, 0)] *)
Definition sum (xs : list number) : number := foldl js_add (num 0) xs.

Definition array_length {A} (xs : list A) : number := num (Z.of_nat (length xs)).

(** [arr.slice(-n)] and [arr.slice(-m, -n)] for [n <= m]. *)
Definition slice_last {A} (n : nat) (xs : list A) : list A :=
  drop (length xs - n) xs.
Definition slice_between {A} (m n : nat) (xs : list A) : list A :=
  take (m - n) (drop (length xs - m) xs).

Definition calculatePriceChange (history : list entry) : number :=
  if decide (length history < 2)%nat then num 0
  else
    let firstPrice := average (history !!! 0%nat) in
    let lastPrice := average (history !!! (length history - 1)%nat) in
    ((lastPrice - firstPrice) / firstPrice * num 100)%js.

Definition calculateMomentum (history : list entry) : number :=
  if decide (length history < 60)%nat then num 0
  else
    let recent30 := slice_last 30 history in
    let previous30 := slice_between 60 30 history in
    let recent30Avg := (sum (average <$> recent30) / array_length recent30)%js in
    let previous30Avg := (sum (average <$> previous30) / array_length previous30)%js in
    ((recent30Avg - previous30Avg) / previous30Avg * num 100)%js.

Section Volatility.
(** [Math.sqrt] has no exact rational model; the volatility is stated
    over any implementation of it. *)
Variable Math_sqrt : number → number.

Definition calculateVolatility (history : list entry) : number :=
  if decide (length history < 2)%nat then num 0
  else
    let prices := average <$> history in
    let mean := (sum prices / array_length prices)%js in
    let squaredDiffs := (λ price, ((price - mean) * (price - mean))%js) <$> prices in
    let variance := (sum squaredDiffs / array_length prices)%js in
    let stdDev := Math_sqrt variance in
    (stdDev / mean * num 100)%js.
End Volatility.

(** The short-horizon deltas of [analyzeItem] (its lines
    "Calculate short-term price changes"), on the history as it stands
    after the function's sort by date.  [horizon] is the literal 7 or 30
    that the source repeats in the guard and in the index. *)
Definition shortTermChange (horizon : nat) (history : list entry) : number :=
  let currentPrice := average (history !!! (length history - 1)%nat) in
  if decide (horizon ≤ length history)%nat then
    let priceAgo := average (history !!! (length history - horizon)%nat) in
    if (priceAgo >? num 0)%js
    then ((currentPrice - priceAgo) / priceAgo * num 100)%js
    else num 0
  else num 0.

Definition priceChange7d : list entry → number := shortTermChange 7.
Definition priceChange30d : list entry → number := shortTermChange 30.

(** What the specification describes: the delta against the price exactly
    [horizon] points before the last one, [0] when no such point exists or
    when that price is not positive. *)
Definition delta_points_earlier (horizon : nat) (history : list entry) : number :=
  let currentPrice := average (history !!! (length history - 1)%nat) in
  if decide (horizon < length history)%nat then
    let priceAgo := average (history !!! (length history - 1 - horizon)%nat) in
    if (priceAgo >? num 0)%js
    then ((currentPrice - priceAgo) / priceAgo * num 100)%js
    else num 0
  else num 0.

(** A point of the given average price; the other fields play no part in
    the statistics. *)
Definition priced (d : string) (p : Z) : entry :=
  Entry d (num p) (num p) (num p) (num 1) (num 1).

(** Eight daily points: 100 followed by seven times 200. *)
Definition eight_points : list entry :=
  priced "2024-01-01" 100 ::
  ((λ d, priced d 200) <$>
     [ "2024-01-02"; "2024-01-03"; "2024-01-04"; "2024-01-05";
       "2024-01-06"; "2024-01-07"; "2024-01-08" ]%string).

(** A series all of whose prices are finite numbers. *)
Definition finite_prices (history : list entry) : Prop :=
  Forall (λ e, is_finite (average e) = true) history.

End Stats.

(** ** Region aggregator: [aggregateRegionData] *)

Module Aggregator.

(** The per-date accumulator object. *)
Module Acc.
Record t : Type := Make {
  date : string;
  totalVolume : number;
  weightedAvgSum : number;
  highest : number;
  lowest : number;
  orderCount : number
}.
End Acc.

#[global] Instance acc_inhabited : Inhabited Acc.t :=
  populate (Acc.Make "" NaN NaN NaN NaN NaN).

(** Names every object literal inherits from [Object.prototype].  Reading
    one of them from a fresh [{}] yields a function (or the prototype
    itself), which is truthy. *)
Definition Object_prototype_names : list string :=
  [ "constructor"; "__defineGetter__"; "__defineSetter__"; "hasOwnProperty";
    "__lookupGetter__"; "__lookupSetter__"; "isPrototypeOf";
    "propertyIsEnumerable"; "toString"; "valueOf"; "__proto__";
    "toLocaleString" ]%string.

Definition inherited (key : string) : bool :=
  bool_decide (key ∈ Object_prototype_names).

(** The accumulator literal created for a date seen for the first time. *)
Definition fresh (d : string) : Acc.t :=
  Acc.Make d (num 0) (num 0) NInf PInf (num 0).

(** The five updates of the innermost loop body. *)
Definition accumulate (agg : Acc.t) (e : entry) : Acc.t :=
  Acc.Make (Acc.date agg)
    (Acc.totalVolume agg + volume e)%js
    (Acc.weightedAvgSum agg + average e * volume e)%js
    (Math_max (Acc.highest agg) (highest e))
    (Math_min (Acc.lowest agg) (lowest e))
    (Acc.orderCount agg + order_count e)%js.

(** One iteration of [for (const entry of regionData[typeId])] on the
    object [byTypeAndDate[typeId]].  When the date names an inherited
    property, [!byTypeAndDate[typeId][date]] is false although the object
    has no such key of its own: no accumulator is created and the updates
    land on the inherited object, which [Object.keys] never lists. *)
Definition add_entry (byDate : gmap string Acc.t) (e : entry) : gmap string Acc.t :=
  match byDate !! date e with
  | Some agg => <[date e := accumulate agg e]> byDate
  | None =>
      if inherited (date e) then byDate
      else <[date e := accumulate (fresh (date e)) e]> byDate
  end.

(** One iteration of [for (const typeId of Object.keys(regionData))]. *)
Definition add_type (byTypeAndDate : gmap N (gmap string Acc.t))
    (item : N * list entry) : gmap N (gmap string Acc.t) :=
  let byDate := default ∅ (byTypeAndDate !! item.1) in
  <[item.1 := foldl add_entry byDate item.2]> byTypeAndDate.

(** One iteration of [for (const regionId of Object.keys(historyData))]. *)
Definition add_region (byTypeAndDate : gmap N (gmap string Acc.t))
    (region : N * list (N * list entry)) : gmap N (gmap string Acc.t) :=
  foldl add_type byTypeAndDate region.2.

(** Default order of [Array.prototype.sort] on strings: lexicographic on
    character codes. *)
Definition String_le (s1 s2 : string) : Prop := String.leb s1 s2 = true.
Definition String_lt (s1 s2 : string) : Prop := String.ltb s1 s2 = true.

#[global] Instance String_le_dec : RelDecision String_le.
Proof. intros s1 s2. unfold String_le. apply _. Defined.

(** [Object.keys(obj).sort()] *)
Definition sorted_keys {A} (obj : gmap string A) : list string :=
  merge_sort String_le (map_to_list obj).*1.

(** The object literal returned by the [dates.map] callback. *)
Definition finalize (agg : Acc.t) : entry :=
  {| date := Acc.date agg;
     average :=
       if (Acc.totalVolume agg >? num 0)%js
       then (Acc.weightedAvgSum agg / Acc.totalVolume agg)%js
       else num 0;
     highest := Acc.highest agg;
     lowest := Acc.lowest agg;
     volume := Acc.totalVolume agg;
     order_count := Acc.orderCount agg |}.

Definition series_of (byDate : gmap string Acc.t) : list entry :=
  (λ d, finalize (byDate !!! d)) <$> sorted_keys byDate.

Definition accumulators (historyData : list (N * list (N * list entry)))
    : gmap N (gmap string Acc.t) :=
  foldl add_region ∅ historyData.

Definition aggregateRegionData (historyData : list (N * list (N * list entry)))
    : gmap N (list entry) :=
  series_of <$> accumulators historyData.

(** The points of item [typeId] in the input, in the order the loops
    visit them. *)
Definition points_of_region (typeId : N) (regionData : list (N * list entry))
    : list entry :=
  regionData ≫= λ item, if decide (item.1 = typeId) then item.2 else [].

Definition points_of (typeId : N) (historyData : list (N * list (N * list entry)))
    : list entry :=
  historyData ≫= λ region, points_of_region typeId region.2.

(** Whether some region lists the item at all (possibly with no point). *)
Definition listed (typeId : N) (historyData : list (N * list (N * list entry))) : Prop :=
  ∃ region item, region ∈ historyData ∧ item ∈ region.2 ∧ item.1 = typeId.

(** The points of a series that fall on date [d]. *)
Definition on_date (d : string) (es : list entry) : list entry :=
  filter (λ e, date e = d) es.

(** The accumulator a date ends with, from the one it starts with and the
    points of that date in visiting order. *)
Definition merge_points (d : string) (start : option Acc.t) (es : list entry)
    : option Acc.t :=
  match start, es with
  | Some agg, _ => Some (foldl accumulate agg es)
  | None, [] => None
  | None, _ :: _ =>
      if inherited d then None else Some (foldl accumulate (fresh d) es)
  end.

(** [byTypeAndDate[typeId]?.[date]] *)
Definition cell (byTypeAndDate : gmap N (gmap string Acc.t)) (typeId : N)
    (d : string) : option Acc.t :=
  default ∅ (byTypeAndDate !! typeId) !! d.

(** The dates of a series with the price extremes of each. *)
Definition extremes (es : list entry) : list (string * number * number) :=
  (λ e, (date e, highest e, lowest e)) <$> es.

(** Two regions trading item 34 on overlapping days. *)
Definition sample_history : list (N * list (N * list entry)) :=
  [ (10000002%N,
      [ (34%N, [ Entry "2024-01-01" (num 100) (num 110) (num 90) (num 10) (num 3);
                 Entry "2024-01-02" (num 110) (num 115) (num 100) (num 20) (num 5) ]) ]);
    (10000043%N,
      [ (34%N, [ Entry "2024-01-02" (num 120) (num 130) (num 105) (num 30) (num 7);
                 Entry "2024-01-03" (num 125) (num 126) (num 120) (num 0) (num 0) ]) ]) ].

(** Its aggregate for item 34 and the aggregated point of 2 January. *)
Definition sample_series : list entry :=
  default [] (aggregateRegionData sample_history !! 34%N).
Definition sample_point : entry := sample_series !!! 1%nat.

(** A region in which one point of item 34 carries a date that is the
    name of an inherited property. *)
Definition odd_history : list (N * list (N * list entry)) :=
  [ (10000002%N,
      [ (34%N, [ Entry "2024-01-01" (num 100) (num 110) (num 90) (num 10) (num 3);
                 Entry "constructor" (num 110) (num 115) (num 100) (num 20) (num 5) ]) ]) ].

End Aggregator.

(** ** The aggregator in rounded arithmetic

    The numbers of the source are binary64 values: the result of every
    addition, multiplication and division is rounded.  [Aggregator] above
    computes with the exact results.  That is the case [rnd = id] of this
    module, which applies a rounding [rnd] after every arithmetic
    operation of [aggregateRegionData]; comparisons, [Math.max] and
    [Math.min] do not round. *)

Module Rounded.
Import Aggregator.

(** Round to the nearest integer, ties to the even one. *)
Definition round_half_even (x : Q) : Z :=
  let f := Qfloor x in
  match (x - inject_Z f ?= 1 # 2)%Q with
  | Lt => f
  | Gt => (f + 1)%Z
  | Eq => if Z.even f then f else (f + 1)%Z
  end.

(** The exponent [e] with [2 ^ e <= x < 2 ^ (e + 1)], for a positive [x]. *)
Definition binade (x : Q) : Z :=
  let e := (Z.log2 (Qnum x) - Z.log2 (Zpos (Qden x)))%Z in
  if Qle_bool (2 ^ e) x then e else (e - 1)%Z.

(** A positive [x] rounded to binary64, to nearest with ties to even: the
    nearest multiple of the unit in the last place, which is
    [2 ^ (e - 52)] in the binade [e] of [x] and [2 ^ -1074] below the
    normal range; [Infinity] when that multiple reaches [2 ^ 1024]. *)
Definition binary64_pos (x : Q) : number :=
  let ulp := (2 ^ (Z.max (binade x) (-1022) - 52))%Q in
  let y := (inject_Z (round_half_even (x / ulp)) * ulp)%Q in
  if Qle_bool (2 ^ 1024) y then PInf else Fin (Q2Qc y).

Definition binary64 (x : number) : number :=
  match x with
  | Fin q =>
      match q ?= 0 with
      | Eq => x
      | Gt => binary64_pos q
      | Lt => js_neg (binary64_pos (- q))
      end
  | _ => x
  end.

(** The unit roundoff of binary64, [2 ^ -53], and the bounds of the range
    in which its rounding neither underflows nor overflows. *)
Definition unit_roundoff : Qc := Q2Qc (1 # 9007199254740992).
Definition smallest_normal : Qc := Q2Qc (2 ^ (-1022)).
Definition largest_binade : Qc := Q2Qc (2 ^ 1023).

(** [rnd] rounds the non-negative number [x] to a number, with a relative
    error of at most [u]. *)
Definition accurate_at (rnd : number → number) (u : Qc) (x : number) : Prop :=
  ∀ q : Qc, x = Fin q → 0 ≤ q →
    ∃ y : Qc, rnd x = Fin y ∧ (1 - u) * q ≤ y ∧ y ≤ (1 + u) * q.

Section Arithmetic.
Variable rnd : number → number.

(** The five updates of the innermost loop body. *)
Definition accumulate (agg : Acc.t) (e : entry) : Acc.t :=
  Acc.Make (Acc.date agg)
    (rnd (Acc.totalVolume agg + volume e)%js)
    (rnd (Acc.weightedAvgSum agg + rnd (average e * volume e)%js)%js)
    (Math_max (Acc.highest agg) (highest e))
    (Math_min (Acc.lowest agg) (lowest e))
    (rnd (Acc.orderCount agg + order_count e)%js).

Definition add_entry (byDate : gmap string Acc.t) (e : entry) : gmap string Acc.t :=
  match byDate !! date e with
  | Some agg => <[date e := accumulate agg e]> byDate
  | None =>
      if inherited (date e) then byDate
      else <[date e := accumulate (fresh (date e)) e]> byDate
  end.

Definition add_type (byTypeAndDate : gmap N (gmap string Acc.t))
    (item : N * list entry) : gmap N (gmap string Acc.t) :=
  let byDate := default ∅ (byTypeAndDate !! item.1) in
  <[item.1 := foldl add_entry byDate item.2]> byTypeAndDate.

Definition add_region (byTypeAndDate : gmap N (gmap string Acc.t))
    (region : N * list (N * list entry)) : gmap N (gmap string Acc.t) :=
  foldl add_type byTypeAndDate region.2.

(** The object literal returned by the [dates.map] callback. *)
Definition finalize (agg : Acc.t) : entry :=
  {| date := Acc.date agg;
     average :=
       if (Acc.totalVolume agg >? num 0)%js
       then rnd (Acc.weightedAvgSum agg / Acc.totalVolume agg)%js
       else num 0;
     highest := Acc.highest agg;
     lowest := Acc.lowest agg;
     volume := Acc.totalVolume agg;
     order_count := Acc.orderCount agg |}.

Definition series_of (byDate : gmap string Acc.t) : list entry :=
  (λ d, finalize (byDate !!! d)) <$> sorted_keys byDate.

Definition accumulators (historyData : list (N * list (N * list entry)))
    : gmap N (gmap string Acc.t) :=
  foldl add_region ∅ historyData.

Definition aggregateRegionData (historyData : list (N * list (N * list entry)))
    : gmap N (list entry) :=
  series_of <$> accumulators historyData.

(** The accumulator a date ends with, from the one it starts with and the
    points of that date in visiting order. *)
Definition merge_points (d : string) (start : option Acc.t) (es : list entry)
    : option Acc.t :=
  match start, es with
  | Some agg, _ => Some (foldl accumulate agg es)
  | None, [] => None
  | None, _ :: _ =>
      if inherited d then None else Some (foldl accumulate (fresh d) es)
  end.

(** The exact results that are rounded on the way to the average of a
    date: for each contribution the new total volume, the weighted term
    and the new weighted sum, and at the end the quotient. *)
Fixpoint roundings (agg : Acc.t) (es : list entry) : list number :=
  match es with
  | [] => [ (Acc.weightedAvgSum agg / Acc.totalVolume agg)%js ]
  | e :: es =>
      (Acc.totalVolume agg + volume e)%js
        :: (average e * volume e)%js
        :: (Acc.weightedAvgSum agg + rnd (average e * volume e)%js)%js
        :: roundings (accumulate agg e) es
  end.

(** Every rounding made for the average of date [d] from the points [es]
    has a relative error of at most [u]: none overflows or underflows. *)
Definition rounds_within (u : Qc) (d : string) (es : list entry) : Prop :=
  Forall (accurate_at rnd u) (roundings (fresh d) es).
End Arithmetic.

(** A contributing point with a finite, non-negative price and volume. *)
Definition quoted (e : entry) : Prop :=
  ∃ a v : Qc, average e = Fin a ∧ volume e = Fin v ∧ 0 ≤ a ∧ 0 ≤ v.

(** The running sums of a date and the exact sums they approximate, after
    [k] contributions: the volume has been rounded [k] times and each
    weighted term once more. *)
Definition sums_within (u lo hi : Qc) (k : nat) (V W : Qc) : Prop :=
  ∃ SV SW : Qc,
    0 ≤ SV ∧ lo * SV ≤ SW ∧ SW ≤ hi * SV
    ∧ (1 - u) ^ k * SV ≤ V ∧ V ≤ (1 + u) ^ k * SV
    ∧ (1 - u) ^ S k * SW ≤ W ∧ W ≤ (1 + u) ^ S k * SW.

(** The double written [0.1]. *)
Definition tenth : number := binary64 (Fin (Q2Qc (1 # 10))).

(** Two regions quoting item 34 at [0.1] on the same day, with volumes 1
    and 2. *)
Definition tenth_history : list (N * list (N * list entry)) :=
  [ (10000002%N,
      [ (34%N, [ Entry "2024-01-01" tenth tenth tenth (num 1) (num 1) ]) ]);
    (10000043%N,
      [ (34%N, [ Entry "2024-01-01" tenth tenth tenth (num 2) (num 1) ]) ]) ].

(** Its aggregate for item 34 in binary64 and the point of that day. *)
Definition tenth_series : list entry :=
  default [] (aggregateRegionData binary64 tenth_history !! 34%N).
Definition tenth_point : entry := tenth_series !!! 0%nat.

End Rounded.

(** ** Incremental synchronisation: the population loop of [main] *)

Module Sync.

(** The object cached per (region, item): each field is present only when
    the header was. *)
Record cacheToken : Type := CacheToken {
  etag : option string;
  lastModified : option string
}.

#[global] Instance cacheToken_eq_dec : EqDecision cacheToken.
Proof. solve_decision. Defined.

(** What the loop reads of a [Response]: the status, the parsed body
    ([None] when [response.json()] rejects) and the two validators. *)
Record response : Type := Response {
  status : Z;
  body : option (list entry);
  header_etag : option string;
  header_last_modified : option string
}.

(** [await fetch(url, { headers })] either resolves or rejects. *)
Inductive fetch_result : Type :=
  | Resolved (resp : response)
  | Rejected.

(** The conditional headers of a request. *)
Record conditional : Type := Conditional {
  If_None_Match : option string;
  If_Modified_Since : option string
}.

(** [response.ok] *)
Definition ok (resp : response) : bool :=
  bool_decide (200 ≤ status resp ≤ 299)%Z.

(** Truthiness of an optional string: [null], [undefined] and the empty
    string are falsy. *)
Definition truthy_string (s : option string) : option string :=
  match s with
  | Some EmptyString => None
  | _ => s
  end.

Record state : Type := State {
  historyData : gmap N (gmap N (list entry));
  etagData : gmap N (gmap N cacheToken);
  fetched : N;
  skipped : N;
  errors : N;
  requestCount : N
}.

Definition NUMBER_OF_ITEMS_TO_PROCESS : N := 10000.

(** [obj[regionId][typeId]] with optional chaining. *)
Definition stored_series (st : state) (regionId typeId : N) : option (list entry) :=
  historyData st !! regionId ≫= λ regionData, regionData !! typeId.

Definition stored_token (st : state) (regionId typeId : N) : option cacheToken :=
  etagData st !! regionId ≫= λ regionTags, regionTags !! typeId.

(** [obj[regionId][typeId] = v], [obj[regionId]] being an object. *)
Definition store {A} (regionId typeId : N) (v : A) (obj : gmap N (gmap N A))
    : gmap N (gmap N A) :=
  <[regionId := <[typeId := v]> (default ∅ (obj !! regionId))]> obj.

(** [if (!obj[regionId]) obj[regionId] = {}] *)
Definition init_region {A} (regionId : N) (obj : gmap N (gmap N A))
    : gmap N (gmap N A) :=
  match obj !! regionId with
  | Some _ => obj
  | None => <[regionId := ∅]> obj
  end.

Definition count_request (st : state) : state :=
  State (historyData st) (etagData st) (fetched st) (skipped st) (errors st)
        (N.succ (requestCount st)).
Definition count_skipped (st : state) : state :=
  State (historyData st) (etagData st) (fetched st) (N.succ (skipped st)) (errors st)
        (requestCount st).
Definition count_error (st : state) : state :=
  State (historyData st) (etagData st) (fetched st) (skipped st) (N.succ (errors st))
        (requestCount st).

(** The branch [response.ok]: the body replaces the stored series and the
    validators, when at least one is present, replace the token. *)
Definition replace (regionId typeId : N) (history : list entry)
    (resp : response) (st : state) : state :=
  let etag := truthy_string (header_etag resp) in
  let lastModified := truthy_string (header_last_modified resp) in
  State (store regionId typeId history (historyData st))
        (if bool_decide (is_Some etag ∨ is_Some lastModified)
         then store regionId typeId (CacheToken etag lastModified) (etagData st)
         else etagData st)
        (N.succ (fetched st)) (skipped st) (errors st) (requestCount st).

Section Run.
(** The market-history endpoint: what the [n]-th request of the run, for
    a region and an item and with the given conditional headers,
    resolves to. *)
Variable fetch : N → N → N → conditional → fetch_result.

(** The body of the inner loop after the limit check. *)
Definition refresh (regionId typeId : N) (st : state) : state :=
  let st := count_request st in
  let cached := stored_token st regionId typeId in
  let headers :=
    Conditional (cached ≫= λ c, truthy_string (etag c))
                (cached ≫= λ c, truthy_string (lastModified c)) in
  match fetch (requestCount st) regionId typeId headers with
  | Rejected => count_error st
  | Resolved resp =>
      if bool_decide (status resp = 304)%Z then count_skipped st
      else if ok resp then
        match body resp with
        | Some history => replace regionId typeId history resp st
        | None => count_error st
        end
      else if bool_decide (status resp = 404)%Z then st
      else count_error st
  end.

(** [for (let i = 0; i < totalItems; i++)] over the values of
    [itemsData]. *)
Fixpoint item_loop (regionId : N) (items : list (string * N)) (st : state) : state :=
  match items with
  | [] => st
  | (_, typeId) :: rest =>
      if decide (NUMBER_OF_ITEMS_TO_PROCESS ≤ requestCount st)%N then st
      else item_loop regionId rest (refresh regionId typeId st)
  end.

(** [for (let r = 0; r < totalRegions; r++)] over the values of
    [regionsData]. *)
Fixpoint region_loop (regions : list (string * N)) (items : list (string * N))
    (st : state) : state :=
  match regions with
  | [] => st
  | (_, regionId) :: rest =>
      if decide (NUMBER_OF_ITEMS_TO_PROCESS ≤ requestCount st)%N then st
      else
        let st :=
          State (init_region regionId (historyData st))
                (init_region regionId (etagData st))
                (fetched st) (skipped st) (errors st) (requestCount st) in
        region_loop rest items (item_loop regionId items st)
  end.

(** Step 1 of [main]: from the loaded snapshot to the snapshot written
    back to the history and ETag files. *)
Definition populate (regions items : list (string * N))
    (history : gmap N (gmap N (list entry)))
    (etags : gmap N (gmap N cacheToken)) : state :=
  region_loop regions items (State history etags 0 0 0 0).


End Run.

(** What a run keeps for a pair: its stored series and its token. *)
Definition kept (st st' : state) (r t : N) : Prop :=
  stored_series st' r t = stored_series st r t
  ∧ stored_token st' r t = stored_token st r t.


(** A catalogue of one region and one item, and a snapshot holding a
    series and a token for that pair. *)
Definition sample_regions : list (string * N) := [("The Forge"%string, 10000002%N)].
Definition sample_items : list (string * N) := [("Tritanium"%string, 34%N)].
Definition sample_stored : gmap N (gmap N (list entry)) :=
  {[ 10000002%N := {[ 34%N := [Stats.priced "2024-01-01" 5] ]} ]}.
Definition sample_tokens : gmap N (gmap N cacheToken) :=
  {[ 10000002%N := {[ 34%N := CacheToken (Some "W/abc"%string) None ]} ]}.


(** An endpoint that answers every request 200 with the given body and
    validators. *)
Definition fetch_fresh (history : list entry) (tag modified : option string)
    : N → N → N → conditional → fetch_result :=
  λ _ _ _ _, Resolved (Response 200 (Some history) tag modified).

(** Every counted outcome belongs to a request: the fetched, unchanged and
    failed attempts never outnumber the requests made. *)
Definition counted (st : state) : Prop :=
  (fetched st + skipped st + errors st ≤ requestCount st)%N.

(** The conditional headers [refresh] sends for a pair. *)
Definition headers_for (st : state) (regionId typeId : N) : conditional :=
  Conditional (stored_token st regionId typeId ≫= λ c, truthy_string (etag c))
              (stored_token st regionId typeId ≫= λ c, truthy_string (lastModified c)).

(** What the request that [refresh] makes for a pair in state [st]
    resolves to: the request carries the next request number and the
    conditional headers built from the token cached in [st]. *)
Definition answer (fetch : N → N → N → conditional → fetch_result)
    (regionId typeId : N) (st : state) : fetch_result :=
  fetch (N.succ (requestCount st)) regionId typeId (headers_for st regionId typeId).

(** [response.status === 304] on a resolved request. *)
Definition not_modified (res : fetch_result) : bool :=
  match res with
  | Resolved resp => bool_decide (status resp = 304%Z)
  | Rejected => false
  end.

Section Attempts.
Variable fetch : N → N → N → conditional → fetch_result.

(** The refresh attempts the loops make, in order: the pair, and the
    state in which its request is sent.  The recursion is that of
    [item_loop] and [region_loop]. *)
Fixpoint item_loop_attempts (regionId : N) (items : list (string * N)) (st : state)
    : list (N * N * state) :=
  match items with
  | [] => []
  | (_, typeId) :: rest =>
      if decide (NUMBER_OF_ITEMS_TO_PROCESS ≤ requestCount st)%N then []
      else (regionId, typeId, st)
             :: item_loop_attempts regionId rest (refresh fetch regionId typeId st)
  end.

Fixpoint region_loop_attempts (regions items : list (string * N)) (st : state)
    : list (N * N * state) :=
  match regions with
  | [] => []
  | (_, regionId) :: rest =>
      if decide (NUMBER_OF_ITEMS_TO_PROCESS ≤ requestCount st)%N then []
      else
        let st :=
          State (init_region regionId (historyData st))
                (init_region regionId (etagData st))
                (fetched st) (skipped st) (errors st) (requestCount st) in
        item_loop_attempts regionId items st
          ++ region_loop_attempts rest items (item_loop fetch regionId items st)
  end.

Definition attempts (regions items : list (string * N))
    (history : gmap N (gmap N (list entry)))
    (etags : gmap N (gmap N cacheToken)) : list (N * N * state) :=
  region_loop_attempts regions items (State history etags 0 0 0 0).

(** Among the given attempts, each one made for the pair is answered
    304 Not Modified. *)
Definition unchanged_among (regionId typeId : N) (l : list (N * N * state)) : Prop :=
  Forall (λ attempt, attempt.1 = (regionId, typeId) →
                     not_modified (answer fetch regionId typeId attempt.2) = true) l.

(** Every refresh attempt the run makes for the pair results in the
    UNCHANGED outcome.  Nothing is asked of requests the run does not
    make: the endpoint may answer otherwise to other headers. *)
Definition unchanged_in_run (regions items : list (string * N))
    (history : gmap N (gmap N (list entry)))
    (etags : gmap N (gmap N cacheToken)) (regionId typeId : N) : Prop :=
  unchanged_among regionId typeId (attempts regions items history etags).
End Attempts.

(** An endpoint that honours [If-None-Match]: 304 when the header carries
    the current validator, otherwise 200 with the series and the
    validator. *)
Definition fetch_conditional (current : string) (history : list entry)
    : N → N → N → conditional → fetch_result :=
  λ _ _ _ headers,
    if decide (If_None_Match headers = Some current)
    then Resolved (Response 304 None None None)
    else Resolved (Response 200 (Some history) (Some current) None).

End Sync.

(** ** Series normaliser of the OSRS analyser: [convertToArray] *)

Module Normalizer.

Record point : Type := Point {
  timestamp : number;
  price : number
}.

#[global] Instance point_eq_dec : EqDecision point.
Proof. solve_decision. Defined.

(** White space [parseInt] skips, among the ASCII characters. *)
Definition is_whitespace (c : ascii) : bool :=
  bool_decide (nat_of_ascii c ∈ [9; 10; 11; 12; 13; 32]%nat).

Fixpoint trim_start (s : string) : string :=
  match s with
  | String c s' => if is_whitespace c then trim_start s' else s
  | EmptyString => s
  end.

Definition digit_value (c : ascii) : option N :=
  let n := N_of_ascii c in
  if bool_decide (48 ≤ n ≤ 57)%N then Some (n - 48)%N
  else if bool_decide (97 ≤ n ≤ 122)%N then Some (n - 87)%N
  else if bool_decide (65 ≤ n ≤ 90)%N then Some (n - 55)%N
  else None.

(** The longest prefix of radix-[radix] digits, as a number; [acc] is
    [None] until a digit has been read. *)
Fixpoint parse_digits (radix : N) (acc : option N) (s : string) : option N :=
  match s with
  | String c s' =>
      match digit_value c with
      | Some d =>
          if bool_decide (d < radix)%N
          then parse_digits radix (Some (default 0 acc * radix + d)%N) s'
          else acc
      | None => acc
      end
  | EmptyString => acc
  end.

(** [parseInt(s)] with no radix argument. *)
Definition parseInt (s : string) : number :=
  let s := trim_start s in
  let '(sign, s) :=
    match s with
    | String "-" s' => ((-1)%Z, s')
    | String "+" s' => (1%Z, s')
    | _ => (1%Z, s)
    end in
  let '(radix, s) :=
    match s with
    | String "0" (String ("x" | "X") s') => (16%N, s')
    | _ => (10%N, s)
    end in
  match parse_digits radix None s with
  | Some n => num (sign * Z.of_N n)
  | None => NaN
  end.

(** [arr.sort(compareFn)]: a stable sort, [compareFn(a, b) > 0] placing [a]
    after [b].  A comparator result of [NaN] counts as [0]. *)
Fixpoint sort_insert {A} (compareFn : A → A → number) (x : A) (l : list A) : list A :=
  match l with
  | [] => [x]
  | y :: l' =>
      if (compareFn x y >? num 0)%js then y :: sort_insert compareFn x l'
      else x :: l
  end.

Definition Array_sort {A} (compareFn : A → A → number) (l : list A) : list A :=
  foldr (sort_insert compareFn) [] l.

(** The [map] callback: [([timestamp, price]) => ({ timestamp: parseInt(timestamp), price })]. *)
Definition to_point (kv : string * number) : point :=
  Point (parseInt kv.1) kv.2.

(** [priceData] is given as [Object.entries] enumerates it. *)
Definition convertToArray (priceData : list (string * number)) : list point :=
  Array_sort (λ a b, (timestamp a - timestamp b)%js) (to_point <$> priceData).

(** A date key is well formed when it parses to a number. *)
Definition well_formed (key : string) : Prop := parseInt key ≠ NaN.

Definition timestamp_le (a b : point) : Prop :=
  js_le (timestamp a) (timestamp b) = true.

(** A point whose timestamp is a number. *)
Definition numeric (p : point) : Prop := timestamp p ≠ NaN.

End Normalizer.

(** ** Ranked shortlists of [runEVEAutomated] and [runOSRSAutomated] *)

Module Ranking.

Inductive risk : Type := high | low.

#[global] Instance risk_eq_dec : EqDecision risk.
Proof. solve_decision. Defined.

(** What the ranking reads of an analysis result.  [investmentScore] is
    the number [parseFloat] reads back from the string that
    [toFixed(1)] stored. *)
Record analysis : Type := Analysis {
  id : N;
  name : string;
  members : bool;
  riskLevel : risk;
  investmentScore : number
}.

(** [(a, b) => parseFloat(b.investmentScore) - parseFloat(a.investmentScore)] *)
Definition by_score_descending (a b : analysis) : number :=
  (investmentScore b - investmentScore a)%js.

(** [results.filter(segment).sort(byScoreDescending).slice(0, n)] *)
Definition shortlist (segment : analysis → bool) (n : nat)
    (results : list analysis) : list analysis :=
  take n (Normalizer.Array_sort by_score_descending
            (filter (λ r, segment r = true) results)).

(** The two lists of the EVE report. *)
Definition highRisk : list analysis → list analysis :=
  shortlist (λ r, bool_decide (riskLevel r = high)) 5.
Definition lowRisk : list analysis → list analysis :=
  shortlist (λ r, bool_decide (riskLevel r = low)) 5.

(** The four lists of the OSRS report. *)
Definition highRiskMembers : list analysis → list analysis :=
  shortlist (λ r, members r && bool_decide (riskLevel r = high)) 3.
Definition lowRiskMembers : list analysis → list analysis :=
  shortlist (λ r, members r && bool_decide (riskLevel r = low)) 3.
Definition highRiskF2P : list analysis → list analysis :=
  shortlist (λ r, negb (members r) && bool_decide (riskLevel r = high)) 3.
Definition lowRiskF2P : list analysis → list analysis :=
  shortlist (λ r, negb (members r) && bool_decide (riskLevel r = low)) 3.

(** [a] is ranked no lower than [b]. *)
Definition score_ge (a b : analysis) : Prop :=
  (investmentScore b <=? investmentScore a)%js = true.

(** Three analysed items, in input order. *)
Definition sample_results : list analysis :=
  [ Analysis 34 "Tritanium" true high (num 80);
    Analysis 35 "Pyerite" true high (num 80);
    Analysis 36 "Mexallon" true high (num 90);
    Analysis 37 "Isogen" false low (num 95) ].

End Ranking.

(** ** Report helpers: [escapeHtml] and [categorizeVolume] *)

Module Report.

(** [s.replace(/c/g, by)] for a pattern of one character. *)
Fixpoint replace_all (c : ascii) (replacement : string) (s : string) : string :=
  match s with
  | EmptyString => EmptyString
  | String x s' =>
      if decide (x = c) then replacement +:+ replace_all c replacement s'
      else String x (replace_all c replacement s')
  end.

Definition quote : ascii := "034"%char.
Definition apostrophe : ascii := "039"%char.

Definition escapeHtml (text : string) : string :=
  replace_all apostrophe "&#039;"
    (replace_all quote "&quot;"
       (replace_all ">" "&gt;"
          (replace_all "<" "&lt;"
             (replace_all "&" "&amp;" text)))).

(** The entity that stands for a character, or the character itself. *)
Definition escape_char (c : ascii) : string :=
  if decide (c = "&"%char) then "&amp;"
  else if decide (c = "<"%char) then "&lt;"
  else if decide (c = ">"%char) then "&gt;"
  else if decide (c = quote) then "&quot;"
  else if decide (c = apostrophe) then "&#039;"
  else String c EmptyString.

Fixpoint escape_each (s : string) : string :=
  match s with
  | EmptyString => EmptyString
  | String c s' => escape_char c +:+ escape_each s'
  end.

Fixpoint occurs (c : ascii) (s : string) : bool :=
  match s with
  | EmptyString => false
  | String x s' => bool_decide (x = c) || occurs c s'
  end.

Inductive volumeCategory : Type := VeryLow | Low | Medium | High | VeryHigh.

Definition rank (c : volumeCategory) : nat :=
  match c with VeryLow => 0 | Low => 1 | Medium => 2 | High => 3 | VeryHigh => 4 end.

(** [categorizeVolume] of the EVE analyser and of the OSRS analyser. *)
Definition categorizeVolume_eve (volume : number) : volumeCategory :=
  if (volume >=? num 10000)%js then VeryHigh
  else if (volume >=? num 1000)%js then High
  else if (volume >=? num 100)%js then Medium
  else if (volume >=? num 10)%js then Low
  else VeryLow.

Definition categorizeVolume_osrs (volume : number) : volumeCategory :=
  if (volume >=? num 1000000)%js then VeryHigh
  else if (volume >=? num 100000)%js then High
  else if (volume >=? num 10000)%js then Medium
  else if (volume >=? num 1000)%js then Low
  else VeryLow.

End Report.

(** ** Local price history of the OSRS analyser: [updateLocalHistory] *)

Module LocalHistory.

(** [String(n)] for a non-negative integer, the form in which a timestamp
    becomes a property key. *)
Definition decimal (n : N) : string := NilZero.string_of_uint (N.to_uint n).

(** [Number.MAX_SAFE_INTEGER]: up to it every integer is a binary64 value
    and prints as plain digits. *)
Definition MAX_SAFE_INTEGER : N := 9007199254740991.

(** The value of a digit sequence read after the value [acc]. *)
Fixpoint digits_value (d : Decimal.uint) (acc : N) : N :=
  match d with
  | Decimal.Nil => acc
  | Decimal.D0 l => digits_value l (acc * 10 + 0)
  | Decimal.D1 l => digits_value l (acc * 10 + 1)
  | Decimal.D2 l => digits_value l (acc * 10 + 2)
  | Decimal.D3 l => digits_value l (acc * 10 + 3)
  | Decimal.D4 l => digits_value l (acc * 10 + 4)
  | Decimal.D5 l => digits_value l (acc * 10 + 5)
  | Decimal.D6 l => digits_value l (acc * 10 + 6)
  | Decimal.D7 l => digits_value l (acc * 10 + 7)
  | Decimal.D8 l => digits_value l (acc * 10 + 8)
  | Decimal.D9 l => digits_value l (acc * 10 + 9)
  end%N.

(** One item of the history file.  The keys of [daily] and [volume] are
    midnight timestamps. *)
Record itemHistory : Type := ItemHistory {
  name : string;
  daily : gmap N number;
  volume : gmap N number
}.

(** [updateLocalHistory], from the loaded file and today's midnight
    timestamp to the saved file and the returned [{ daily, volume }]. *)
Definition updateLocalHistory (historicalData : gmap N itemHistory)
    (todayTimestamp : N) (itemId : N) (itemName : string)
    (currentPrice vol : number)
    : gmap N itemHistory * (gmap N number * gmap N number) :=
  let item := default (ItemHistory itemName ∅ ∅) (historicalData !! itemId) in
  let item := ItemHistory itemName
                (<[todayTimestamp := currentPrice]> (daily item))
                (<[todayTimestamp := vol]> (volume item)) in
  (<[itemId := item]> historicalData, (daily item, volume item)).

(** [Object.entries(daily)], the order of enumeration left open. *)
Definition entries_of (order : list (N * number)) : list (string * number) :=
  (λ kv, (decimal kv.1, kv.2)) <$> order.

End LocalHistory.

(** ** Catalogue sorter: the item phase of [main] in sortItemsAndRegions.js *)

Module Sorter.

(** One iteration of [for (const order of orders)], on [order.type_id]. *)
Definition count_order (itemOrderCounts : gmap N N) (typeId : N) : gmap N N :=
  <[typeId := N.succ (default 0%N (itemOrderCounts !! typeId))]> itemOrderCounts.

Definition itemOrderCounts (orders : list N) : gmap N N :=
  foldl count_order ∅ orders.

(** The reverse lookup built from [Object.entries(itemsData)]. *)
Definition typeIdToName (itemsData : list (string * N)) : gmap N string :=
  foldl (λ lookup item, <[item.2 := item.1]> lookup) ∅ itemsData.

(** [(a, b) => b[1] - a[1]] *)
Definition by_count_descending (a b : N * N) : number :=
  (num (Z.of_N b.2) - num (Z.of_N a.2))%js.

(** The [reduce] callback: an entry whose type has a non-empty name adds
    the property [itemName: typeId]; the others add nothing. *)
Definition named (lookup : gmap N string) (entry : N * N) : option (string * N) :=
  match lookup !! entry.1 with
  | Some EmptyString | None => None
  | Some itemName => Some (itemName, entry.1)
  end.

(** The properties of [sortedItems] in insertion order, [enumeration] being
    [Object.entries(itemOrderCounts)]. *)
Definition sortedItems (itemsData : list (string * N)) (enumeration : list (N * N))
    : list (string * N) :=
  omap (named (typeIdToName itemsData))
       (Normalizer.Array_sort by_count_descending enumeration).

(** How many orders are for the item. *)
Definition orders_for (typeId : N) (orders : list N) : N :=
  N.of_nat (length (filter (λ t, t = typeId) orders)).

End Sorter.

(** ** Market overview of [runEVEAutomated] *)

Module Overview.

(** The three counters of [marketOverview], on the values
    [parseFloat(r.momentum)] of the results in order. *)
Definition itemsUp (momentums : list number) : nat :=
  length (filter (λ m, (m >? num 0)%js = true) momentums).
Definition itemsDown (momentums : list number) : nat :=
  length (filter (λ m, (m <? num 0)%js = true) momentums).
Definition itemsFlat (momentums : list number) : nat :=
  length (filter (λ m, m = num 0) momentums).

End Overview.

(** * Properties *)

Set Warnings "-clear-no-such-hyp".

(** ** Arithmetic of JavaScript numbers *)

(** Order goals over the canonical rationals, through [lra] on their
    underlying fractions. *)
Ltac qc_order :=
  try reflexivity;
  first [ unfold Qcle, Qclt in *; lra
        | exfalso; unfold Qcle, Qclt in *; lra
        | f_equal; apply Qc_is_canon; unfold Qcle, Qclt in *; lra ].

Section NumberFacts.

Lemma Qc_of_Z_0 : Qc_of_Z 0 = 0.
Proof. apply Qc_is_canon. reflexivity. Qed.

Lemma Qc_of_Z_nonzero z : z ≠ 0%Z → Qc_of_Z z ≠ 0.
Proof.
  intros Hz Heq. apply Hz.
  apply (f_equal this) in Heq. simpl in Heq.
  by injection Heq.
Qed.

Lemma js_div_fin (a b : Qc) : b ≠ 0 → (Fin a / Fin b)%js = Fin (a / b).
Proof. intros Hb. unfold js_div. by rewrite decide_False. Qed.

Lemma js_div_zero (a : Qc) : (Fin a / Fin 0)%js = signed_inf a.
Proof. unfold js_div. by rewrite decide_True. Qed.

Lemma js_add_comm (x y : number) : (x + y)%js = (y + x)%js.
Proof. destruct x, y; simpl; try reflexivity. f_equal. apply Qcplus_comm. Qed.

Lemma js_add_assoc (x y z : number) : (x + (y + z))%js = (x + y + z)%js.
Proof. destruct x, y, z; simpl; try reflexivity. f_equal. apply Qcplus_assoc. Qed.

Lemma js_le_fin (a b : Qc) : (Fin a <=? Fin b)%js = true ↔ a ≤ b.
Proof. simpl. apply bool_decide_eq_true. Qed.

Lemma js_lt_fin (a b : Qc) : (Fin a <? Fin b)%js = true ↔ a < b.
Proof. simpl. apply bool_decide_eq_true. Qed.

Lemma Math_max_comm (x y : number) : Math_max x y = Math_max y x.
Proof.
  destruct x as [a| | |], y as [b| | |]; simpl; try reflexivity.
  repeat case_bool_decide; qc_order.
Qed.

Lemma Math_min_comm (x y : number) : Math_min x y = Math_min y x.
Proof.
  destruct x as [a| | |], y as [b| | |]; simpl; try reflexivity.
  repeat case_bool_decide; qc_order.
Qed.

Lemma Math_max_assoc (x y z : number) :
  Math_max x (Math_max y z) = Math_max (Math_max x y) z.
Proof.
  destruct x as [a| | |], y as [b| | |], z as [c| | |]; simpl; try reflexivity;
    repeat (case_bool_decide; simpl); qc_order.
Qed.

Lemma Math_min_assoc (x y z : number) :
  Math_min x (Math_min y z) = Math_min (Math_min x y) z.
Proof.
  destruct x as [a| | |], y as [b| | |], z as [c| | |]; simpl; try reflexivity;
    repeat (case_bool_decide; simpl); qc_order.
Qed.

End NumberFacts.

(** ** Scoring *)

Section ScoringFacts.
Import Scoring.

Lemma Math_min_fin (a b : Qc) : Math_min (Fin a) (Fin b) = Fin (Qc_min a b).
Proof. unfold Math_min, Qc_min, js_le. by case_bool_decide; case_decide. Qed.

Lemma Math_max_fin (a b : Qc) : Math_max (Fin a) (Fin b) = Fin (Qc_max a b).
Proof. unfold Math_max, Qc_max, js_le. by case_bool_decide; case_decide. Qed.

Lemma score_before_clamp_fin (pc v m : Qc) :
  score_before_clamp (Fin pc) (Fin v) (Fin m) = Fin (reference_sum pc v m).
Proof.
  unfold score_before_clamp, reference_sum, volatility_contribution,
    momentum_contribution, price_change_contribution, breakout_bonus.
  unfold js_ge, js_gt, js_le, js_lt, num.
  rewrite !js_div_fin by (by apply Qc_of_Z_nonzero).
  cbn [js_mul js_add]. rewrite Math_min_fin.
  repeat case_bool_decide; repeat case_decide; cbn [andb js_add];
    rewrite ?Qcplus_0_r; first [reflexivity | exfalso; tauto].
Qed.

Lemma calculateInvestmentScore_fin (pc v m : Qc) :
  calculateInvestmentScore (Fin pc) (Fin v) (Fin m) = Fin (reference_score pc v m).
Proof.
  unfold calculateInvestmentScore, reference_score, clamp, num.
  rewrite score_before_clamp_fin, Math_min_fin, Math_max_fin.
  rewrite Qc_of_Z_0. reflexivity.
Qed.

Lemma Qc_min_le_l a b : Qc_min a b ≤ a.
Proof. unfold Qc_min. case_decide; qc_order. Qed.

Lemma Qc_max_le_l a b : a ≤ Qc_max a b.
Proof. unfold Qc_max. case_decide; qc_order. Qed.

Lemma Qc_max_lub a b c : a ≤ c → b ≤ c → Qc_max a b ≤ c.
Proof. unfold Qc_max. intros. case_decide; assumption. Qed.

Lemma clamp_bounds x lo hi : lo ≤ hi → lo ≤ clamp x lo hi ≤ hi.
Proof.
  intros Hlh. unfold clamp. split; [apply Qc_max_le_l|].
  apply Qc_max_lub; [assumption | apply Qc_min_le_l].
Qed.

(** C1: on finite inputs [calculateInvestmentScore] computes the reference
    formula of the specification (base 50, volatility, momentum and
    price-change contributions, breakout bonus, clamp to [0, 100]); at
    volatility 20, momentum 0 and price change 40 the sum is 110 before the
    clamp and the score is 100. *)
Theorem calculateInvestmentScore_reference :
  (∀ pc v m : Qc,
     calculateInvestmentScore (Fin pc) (Fin v) (Fin m) = Fin (reference_score pc v m))
  ∧ score_before_clamp (num 40) (num 20) (num 0) = num 110
  ∧ calculateInvestmentScore (num 40) (num 20) (num 0) = num 100.
Proof.
  split; [apply calculateInvestmentScore_fin|].
  split; vm_compute; f_equal; apply Qc_is_canon; reflexivity.
Qed.

(** C2: for finite, non-negative volatility, price change and momentum the
    investment score is a finite number of the interval [0, 100]. *)
Theorem calculateInvestmentScore_in_range (pc v m : Qc) :
  0 ≤ v → 0 ≤ pc → 0 ≤ m →
  ∃ s, calculateInvestmentScore (Fin pc) (Fin v) (Fin m) = Fin s
       ∧ 0 ≤ s ≤ Qc_of_Z 100.
Proof.
  intros _ _ _. exists (reference_score pc v m). split.
  - apply calculateInvestmentScore_fin.
  - apply clamp_bounds. by vm_compute.
Qed.

Lemma calculateInvestmentScore_in_range_witness :
  ∃ s, calculateInvestmentScore (Fin (Qc_of_Z 5)) (Fin (Qc_of_Z 1000)) (Fin (Qc_of_Z 2)) = Fin s
       ∧ 0 ≤ s ≤ Qc_of_Z 100.
Proof.
  apply (calculateInvestmentScore_in_range (Qc_of_Z 5) (Qc_of_Z 1000) (Qc_of_Z 2));
    by vm_compute.
Defined.

End ScoringFacts.

(** ** Statistics *)

Section StatsFacts.
Import Stats.

(** C3: the divisions of the statistics are unguarded.  With a first price
    of 0 the price change is [Infinity], not 0, and with thirty prices of 0
    followed by thirty of 5 so is the momentum. *)
Theorem division_by_zero_is_not_guarded :
  calculatePriceChange [priced "2024-01-01" 0; priced "2024-01-02" 5] = PInf
  ∧ calculateMomentum
      (replicate 30 (priced "2024-01-01" 0) ++ replicate 30 (priced "2024-02-01" 5))
    = PInf.
Proof. split; vm_compute; reflexivity. Qed.

(** The volatility of a series of zero prices is [NaN], whatever
    [Math.sqrt] returns on other arguments. *)
Lemma calculateVolatility_zero_mean (Math_sqrt : number → number) :
  Math_sqrt (num 0) = num 0 →
  calculateVolatility Math_sqrt [priced "2024-01-01" 0; priced "2024-01-02" 0] = NaN.
Proof.
  intros Hsqrt. unfold calculateVolatility. cbn [length decide_rel].
  rewrite decide_False by (simpl; lia). cbv zeta.
  set (prices := average <$> _).
  assert (Hmean : (sum prices / array_length prices)%js = num 0).
  { vm_compute. f_equal. apply Qc_is_canon. reflexivity. }
  rewrite Hmean.
  assert (Hvar : (sum ((λ price, ((price - num 0) * (price - num 0))%js) <$> prices)
                  / array_length prices)%js = num 0).
  { vm_compute. f_equal. apply Qc_is_canon. reflexivity. }
  rewrite Hvar, Hsqrt. vm_compute. reflexivity.
Qed.

(** The guard and the index of the short-horizon deltas use the same
    literal, so the reference point is [horizon - 1] places before the
    last one. *)
Lemma shortTermChange_offset (k : nat) (history : list entry) :
  history ≠ [] →
  shortTermChange (S k) history = delta_points_earlier k history.
Proof.
  intros Hne. unfold shortTermChange, delta_points_earlier.
  destruct history as [|e history]; [done|]. cbn [length].
  replace (S (length history) - 1 - k)%nat with (S (length history) - S k)%nat by lia.
  destruct (decide (S k ≤ S (length history))%nat),
           (decide (k < S (length history))%nat); try lia; reflexivity.
Qed.

(** C8: on eight points the price seven points before the last is the
    first one (100, a delta of 100 percent), but [priceChange7d] reads the
    second one (200) and returns 0. *)
Theorem priceChange7d_reads_six_points_back :
  priceChange7d eight_points = num 0
  ∧ delta_points_earlier 7 eight_points = num 100.
Proof. split; vm_compute; f_equal; apply Qc_is_canon; reflexivity. Qed.

End StatsFacts.

(** ** Region aggregation *)

Section StringOrder.
Import Aggregator.

Lemma String_compare_refl (s : string) : String.compare s s = Eq.
Proof.
  induction s as [|c s IH]; [done|]. simpl.
  unfold Ascii.compare. by rewrite N.compare_refl.
Qed.

Lemma String_compare_le_trans (s1 s2 s3 : string) :
  String.compare s1 s2 ≠ Gt → String.compare s2 s3 ≠ Gt →
  String.compare s1 s3 ≠ Gt.
Proof.
  revert s2 s3. induction s1 as [|c1 s1 IH]; intros [|c2 s2] [|c3 s3]; simpl;
    try done.
  unfold Ascii.compare.
  destruct (N.compare_spec (N_of_ascii c1) (N_of_ascii c2)) as [E12|L12|G12];
    destruct (N.compare_spec (N_of_ascii c2) (N_of_ascii c3)) as [E23|L23|G23];
    destruct (N.compare_spec (N_of_ascii c1) (N_of_ascii c3)) as [E13|L13|G13];
    try done; try lia.
  apply IH.
Qed.

#[global] Instance String_le_refl : Reflexive String_le.
Proof. intros s. unfold String_le, String.leb. by rewrite String_compare_refl. Qed.

#[global] Instance String_le_trans : Transitive String_le.
Proof.
  intros s1 s2 s3. unfold String_le, String.leb.
  pose proof (String_compare_le_trans s1 s2 s3) as Htrans.
  destruct (String.compare s1 s2), (String.compare s2 s3),
    (String.compare s1 s3); try done; intros _ _; exfalso; by apply Htrans.
Qed.

#[global] Instance String_le_total : Total String_le.
Proof. intros s1 s2. apply String.leb_total. Qed.

#[global] Instance String_le_antisym : AntiSymm (=) String_le.
Proof. intros s1 s2. apply String.leb_antisym. Qed.

Lemma String_lt_le_ne (s1 s2 : string) :
  String_lt s1 s2 ↔ String_le s1 s2 ∧ s1 ≠ s2.
Proof.
  unfold String_lt, String_le, String.ltb, String.leb. split.
  - destruct (String.compare s1 s2) eqn:Hc; try done. intros _. split; [done|].
    intros ->. by rewrite String_compare_refl in Hc.
  - intros [Hle Hne]. destruct (String.compare s1 s2) eqn:Hc; try done.
    by apply String.compare_eq_iff in Hc.
Qed.

(** A list sorted for [<=] without repetition is sorted for [<]. *)
Lemma StronglySorted_le_NoDup_lt (l : list string) :
  StronglySorted String_le l → NoDup l → StronglySorted String_lt l.
Proof.
  induction 1 as [|x l Hs IH Hall]; intros Hnd; [constructor|].
  apply NoDup_cons in Hnd as [Hx Hnd]. constructor; [by apply IH|].
  rewrite Forall_forall in Hall |- *. intros y Hy.
  apply String_lt_le_ne. split; [by apply Hall|]. intros ->. by apply Hx.
Qed.

Lemma sorted_keys_elem_of {A} (obj : gmap string A) (k : string) :
  k ∈ sorted_keys obj ↔ is_Some (obj !! k).
Proof.
  unfold sorted_keys. rewrite merge_sort_Permutation.
  rewrite list_elem_of_fmap. split.
  - intros [[k' v] [-> Hin]]. apply elem_of_map_to_list in Hin. by exists v.
  - intros [v Hv]. exists (k, v). split; [done|]. by apply elem_of_map_to_list.
Qed.

Lemma sorted_keys_NoDup {A} (obj : gmap string A) : NoDup (sorted_keys obj).
Proof.
  unfold sorted_keys. rewrite merge_sort_Permutation.
  apply NoDup_fst_map_to_list.
Qed.

Lemma sorted_keys_sorted {A} (obj : gmap string A) :
  StronglySorted String_lt (sorted_keys obj).
Proof.
  apply StronglySorted_le_NoDup_lt; [|apply sorted_keys_NoDup].
  unfold sorted_keys. apply (StronglySorted_merge_sort _).
Qed.

End StringOrder.

Section Accumulation.
Import Aggregator.

Lemma accumulate_date (agg : Acc.t) (e : entry) :
  Acc.date (accumulate agg e) = Acc.date agg.
Proof. reflexivity. Qed.

Lemma foldl_accumulate_date (es : list entry) (agg : Acc.t) :
  Acc.date (foldl accumulate agg es) = Acc.date agg.
Proof. revert agg. induction es as [|e es IH]; intros agg; [done|]. simpl. by rewrite IH. Qed.

Lemma merge_points_app (d : string) (start : option Acc.t) (es1 es2 : list entry) :
  merge_points d (merge_points d start es1) es2 = merge_points d start (es1 ++ es2).
Proof.
  destruct start as [agg|]; simpl.
  - by rewrite foldl_app.
  - destruct es1 as [|e1 es1]; simpl; [done|].
    destruct (inherited d) eqn:Hinh; simpl.
    + destruct es2; simpl; [done|]. by rewrite Hinh.
    + by rewrite foldl_app.
Qed.

Lemma on_date_app (d : string) (es1 es2 : list entry) :
  on_date d (es1 ++ es2) = on_date d es1 ++ on_date d es2.
Proof. apply filter_app. Qed.

(** The innermost loop, one date at a time. *)
Lemma foldl_add_entry_lookup (es : list entry) (byDate : gmap string Acc.t) (d : string) :
  foldl add_entry byDate es !! d = merge_points d (byDate !! d) (on_date d es).
Proof.
  revert byDate. induction es as [|e es IH]; intros byDate.
  - simpl. by destruct (byDate !! d).
  - cbn [foldl]. rewrite IH. unfold on_date. rewrite filter_cons.
    unfold add_entry. destruct (decide (date e = d)) as [<-|Hne].
    + destruct (byDate !! date e) as [agg|] eqn:Hlook.
      * by rewrite lookup_insert_eq.
      * simpl. destruct (inherited (date e)) eqn:Hinh.
        -- rewrite Hlook. simpl. rewrite Hinh. by destruct (filter _ es).
        -- by rewrite lookup_insert_eq.
    + destruct (byDate !! date e) as [agg|] eqn:Hlook.
      * by rewrite lookup_insert_ne.
      * destruct (inherited (date e)); [done|]. by rewrite lookup_insert_ne.
Qed.

Lemma cell_add_type (acc : gmap N (gmap string Acc.t)) (item : N * list entry)
    (t : N) (d : string) :
  cell (add_type acc item) t d
  = merge_points d (cell acc t d) (on_date d (points_of_region t [item])).
Proof.
  unfold cell, add_type, points_of_region. simpl. rewrite app_nil_r.
  destruct (decide (item.1 = t)) as [<-|Hne].
  - rewrite lookup_insert_eq. simpl. apply foldl_add_entry_lookup.
  - rewrite lookup_insert_ne by done. simpl.
    by destruct (default ∅ (acc !! t) !! d).
Qed.

Lemma points_of_region_app (t : N) (r1 r2 : list (N * list entry)) :
  points_of_region t (r1 ++ r2) = points_of_region t r1 ++ points_of_region t r2.
Proof. unfold points_of_region. apply bind_app. Qed.

Lemma points_of_app (t : N) (h1 h2 : list (N * list (N * list entry))) :
  points_of t (h1 ++ h2) = points_of t h1 ++ points_of t h2.
Proof. unfold points_of. apply bind_app. Qed.

Lemma cell_add_region (region : N * list (N * list entry))
    (acc : gmap N (gmap string Acc.t)) (t : N) (d : string) :
  cell (add_region acc region) t d
  = merge_points d (cell acc t d) (on_date d (points_of_region t region.2)).
Proof.
  unfold add_region. generalize (region.2). intros items. revert acc.
  induction items as [|item items IH]; intros acc.
  - simpl. by destruct (cell acc t d).
  - cbn [foldl]. rewrite IH, cell_add_type, merge_points_app, <-on_date_app.
    by rewrite <-points_of_region_app.
Qed.

Lemma cell_foldl_add_region (hist : list (N * list (N * list entry)))
    (acc : gmap N (gmap string Acc.t)) (t : N) (d : string) :
  cell (foldl add_region acc hist) t d
  = merge_points d (cell acc t d) (on_date d (points_of t hist)).
Proof.
  revert acc. induction hist as [|region hist IH]; intros acc.
  - simpl. by destruct (cell acc t d).
  - cbn [foldl]. rewrite IH, cell_add_region, merge_points_app, <-on_date_app.
    f_equal.
Qed.

Lemma cell_accumulators (hist : list (N * list (N * list entry))) (t : N) (d : string) :
  cell (accumulators hist) t d = merge_points d None (on_date d (points_of t hist)).
Proof. unfold accumulators. by rewrite cell_foldl_add_region. Qed.

(** Which items own an accumulator object. *)
Lemma add_type_is_Some (acc : gmap N (gmap string Acc.t)) (item : N * list entry) (t : N) :
  is_Some (add_type acc item !! t) ↔ is_Some (acc !! t) ∨ item.1 = t.
Proof.
  unfold add_type. destruct (decide (item.1 = t)) as [<-|Hne].
  - rewrite lookup_insert_eq. split; eauto.
  - rewrite lookup_insert_ne by done. naive_solver.
Qed.

Lemma add_region_is_Some (region : N * list (N * list entry))
    (acc : gmap N (gmap string Acc.t)) (t : N) :
  is_Some (add_region acc region !! t)
  ↔ is_Some (acc !! t) ∨ ∃ item, item ∈ region.2 ∧ item.1 = t.
Proof.
  unfold add_region. generalize (region.2). intros items. revert acc.
  induction items as [|item items IH]; intros acc; simpl.
  - split; [eauto|]. intros [?|(item & Hin & _)]; [done|]. by apply elem_of_nil in Hin.
  - rewrite IH, add_type_is_Some. setoid_rewrite elem_of_cons. naive_solver.
Qed.

Lemma foldl_add_region_is_Some (hist : list (N * list (N * list entry)))
    (acc : gmap N (gmap string Acc.t)) (t : N) :
  is_Some (foldl add_region acc hist !! t) ↔ is_Some (acc !! t) ∨ listed t hist.
Proof.
  unfold listed. revert acc. induction hist as [|region hist IH]; intros acc; simpl.
  - split; [eauto|]. intros [?|(r & i & Hin & _)]; [done|]. by apply elem_of_nil in Hin.
  - rewrite IH, add_region_is_Some. setoid_rewrite elem_of_cons. naive_solver.
Qed.

Lemma accumulators_is_Some (hist : list (N * list (N * list entry))) (t : N) :
  is_Some (accumulators hist !! t) ↔ listed t hist.
Proof.
  unfold accumulators. rewrite foldl_add_region_is_Some, lookup_empty.
  split; [|eauto]. intros [[? ?]|?]; done.
Qed.

End Accumulation.

Section AggregatedDates.
Import Aggregator.

(** Every accumulator is stored under its own date. *)
Lemma accumulators_date (hist : list (N * list (N * list entry))) (t : N)
    (byDate : gmap string Acc.t) (d : string) (agg : Acc.t) :
  accumulators hist !! t = Some byDate → byDate !! d = Some agg → Acc.date agg = d.
Proof.
  intros Ht Hd. pose proof (cell_accumulators hist t d) as Hcell.
  unfold cell in Hcell. rewrite Ht in Hcell. simpl in Hcell. rewrite Hd in Hcell.
  destruct (on_date d (points_of t hist)) as [|e es]; simpl in Hcell; [done|].
  destruct (inherited d); [done|]. injection Hcell as ->.
  by rewrite foldl_accumulate_date.
Qed.

Lemma on_date_nonempty (d : string) (es : list entry) :
  on_date d es ≠ [] ↔ d ∈ date <$> es.
Proof.
  unfold on_date. rewrite list_elem_of_fmap. split.
  - intros Hne. destruct (filter _ es) as [|e l] eqn:Hf; [done|].
    assert (He : e ∈ filter (λ e, date e = d) es) by (rewrite Hf; left).
    apply list_elem_of_filter in He as [<- He]. eauto.
  - intros (e & -> & He) Hnil.
    assert (Hin : e ∈ filter (λ e', date e' = date e) es)
      by (by apply list_elem_of_filter).
    rewrite Hnil in Hin. by apply elem_of_nil in Hin.
Qed.

Lemma series_of_dates (hist : list (N * list (N * list entry))) (t : N)
    (byDate : gmap string Acc.t) :
  accumulators hist !! t = Some byDate →
  date <$> series_of byDate = sorted_keys byDate.
Proof.
  intros Ht. unfold series_of. rewrite <-list_fmap_compose.
  rewrite <-(list_fmap_id (sorted_keys byDate)) at 2.
  apply Forall_fmap_ext_1, Forall_forall. intros d Hd. simpl.
  apply sorted_keys_elem_of in Hd as [agg Hagg].
  rewrite (lookup_total_correct _ _ _ Hagg).
  by apply (accumulators_date hist t byDate).
Qed.

Lemma aggregateRegionData_lookup (hist : list (N * list (N * list entry))) (t : N) :
  aggregateRegionData hist !! t = series_of <$> accumulators hist !! t.
Proof. unfold aggregateRegionData. apply lookup_fmap. Qed.

(** C4: for an item whose input dates are ordinary keys (none is the name
    of a property inherited from [Object.prototype], as no calendar day
    is), the item has an aggregated series exactly when some region lists
    it, the dates of that series are exactly the dates of the item's input
    points, and they are strictly increasing, hence without duplicates. *)
Theorem aggregated_dates (hist : list (N * list (N * list entry))) (t : N) :
  (∀ e, e ∈ points_of t hist → inherited (date e) = false) →
  (is_Some (aggregateRegionData hist !! t) ↔ listed t hist)
  ∧ ∀ out, aggregateRegionData hist !! t = Some out →
      (∀ d, d ∈ date <$> out ↔ d ∈ date <$> points_of t hist)
      ∧ StronglySorted String_lt (date <$> out).
Proof.
  intros Hown. rewrite aggregateRegionData_lookup. split.
  - rewrite fmap_is_Some. apply accumulators_is_Some.
  - intros out Hout. apply fmap_Some in Hout as (byDate & Ht & ->).
    rewrite (series_of_dates hist t byDate Ht). split; [|apply sorted_keys_sorted].
    intros d. rewrite sorted_keys_elem_of, <-on_date_nonempty.
    pose proof (cell_accumulators hist t d) as Hcell.
    unfold cell in Hcell. rewrite Ht in Hcell. simpl in Hcell. rewrite Hcell.
    destruct (on_date d (points_of t hist)) as [|e es] eqn:Hon; simpl.
    + split; [by intros [? ?]|done].
    + assert (He : e ∈ on_date d (points_of t hist)) by (rewrite Hon; left).
      apply list_elem_of_filter in He as [<- He]. rewrite (Hown e He).
      split; [done|eauto].
Qed.

End AggregatedDates.

Section RegionOrder.
Import Aggregator.

Lemma js_add_swap (x y z : number) : (x + y + z)%js = (x + z + y)%js.
Proof. by rewrite <-!js_add_assoc, (js_add_comm y z). Qed.

Lemma Math_max_swap (x y z : number) :
  Math_max (Math_max x y) z = Math_max (Math_max x z) y.
Proof. by rewrite <-!Math_max_assoc, (Math_max_comm y z). Qed.

Lemma Math_min_swap (x y z : number) :
  Math_min (Math_min x y) z = Math_min (Math_min x z) y.
Proof. by rewrite <-!Math_min_assoc, (Math_min_comm y z). Qed.

Lemma accumulate_swap (agg : Acc.t) (e1 e2 : entry) :
  accumulate (accumulate agg e1) e2 = accumulate (accumulate agg e2) e1.
Proof.
  unfold accumulate. cbn [Acc.date Acc.totalVolume Acc.weightedAvgSum
    Acc.highest Acc.lowest Acc.orderCount].
  f_equal; auto using js_add_swap, Math_max_swap, Math_min_swap.
Qed.

Lemma foldl_accumulate_Permutation (es1 es2 : list entry) :
  es1 ≡ₚ es2 → ∀ agg, foldl accumulate agg es1 = foldl accumulate agg es2.
Proof.
  induction 1 as [|e es1 es2 _ IH|e1 e2 es|es1 es2 es3 _ IH1 _ IH2]; intros agg; simpl.
  - done.
  - apply IH.
  - by rewrite accumulate_swap.
  - by rewrite IH1.
Qed.

Lemma merge_points_Permutation (d : string) (start : option Acc.t) (es1 es2 : list entry) :
  es1 ≡ₚ es2 → merge_points d start es1 = merge_points d start es2.
Proof.
  intros Hperm. destruct start as [agg|]; simpl.
  - f_equal. by apply foldl_accumulate_Permutation.
  - destruct es1 as [|e1 es1], es2 as [|e2 es2]; try done.
    + by apply Permutation_nil_cons in Hperm.
    + symmetry in Hperm. by apply Permutation_nil_cons in Hperm.
    + destruct (inherited d); [done|]. f_equal.
      by apply foldl_accumulate_Permutation.
Qed.

Lemma points_of_Permutation (t : N) (hist1 hist2 : list (N * list (N * list entry))) :
  hist1 ≡ₚ hist2 → points_of t hist1 ≡ₚ points_of t hist2.
Proof. intros Hperm. unfold points_of. by rewrite Hperm. Qed.

Lemma listed_Permutation (t : N) (hist1 hist2 : list (N * list (N * list entry))) :
  hist1 ≡ₚ hist2 → listed t hist1 ↔ listed t hist2.
Proof. intros Hperm. unfold listed. by setoid_rewrite Hperm. Qed.

Lemma accumulators_Permutation (hist1 hist2 : list (N * list (N * list entry))) :
  hist1 ≡ₚ hist2 → accumulators hist1 = accumulators hist2.
Proof.
  intros Hperm. apply map_eq. intros t.
  pose proof (accumulators_is_Some hist1 t) as H1.
  pose proof (accumulators_is_Some hist2 t) as H2.
  rewrite (listed_Permutation t _ _ Hperm) in H1.
  assert (Hcell : ∀ d, cell (accumulators hist1) t d = cell (accumulators hist2) t d).
  { intros d. rewrite !cell_accumulators. apply merge_points_Permutation.
    unfold on_date. by rewrite (points_of_Permutation t _ _ Hperm). }
  unfold cell in Hcell.
  destruct (accumulators hist1 !! t) as [m1|], (accumulators hist2 !! t) as [m2|].
  - f_equal. apply map_eq, Hcell.
  - exfalso. eapply is_Some_None. apply H2, H1. eauto.
  - exfalso. eapply is_Some_None. apply H1, H2. eauto.
  - done.
Qed.

(** C5: merging two regional inputs in the order [A, B] yields the same
    aggregated series for every item (dates, averages, highs, lows, volumes
    and order counts) as merging them in the order [B, A]. *)
Theorem aggregateRegionData_commutative (idA idB : N) (A B : list (N * list entry)) :
  aggregateRegionData [(idA, A); (idB, B)] = aggregateRegionData [(idB, B); (idA, A)].
Proof.
  unfold aggregateRegionData.
  by rewrite (accumulators_Permutation _ _ (Permutation_swap (idA, A) (idB, B) [])).
Qed.

End RegionOrder.

Section WeightedAverage.
Import Aggregator.

Lemma foldl_accumulate_totalVolume (es : list entry) (agg : Acc.t) :
  Acc.totalVolume (foldl accumulate agg es)
  = foldl js_add (Acc.totalVolume agg) (volume <$> es).
Proof. revert agg. induction es as [|e es IH]; intros agg; [done|]. simpl. by rewrite IH. Qed.

Lemma Qc_le_div (x W V : Qc) : 0 < V → x * V ≤ W → x ≤ W / V.
Proof.
  intros HV Hle. apply Qcmult_lt_0_le_reg_r with V; [done|].
  rewrite (Qcmult_comm (W / V)), Qcmult_div_r; [done|].
  intros ->. by apply (irreflexivity Qclt 0).
Qed.

(** A non-empty series of finite prices has a cheapest and a dearest point. *)
Lemma cheapest_point (es : list entry) :
  es ≠ [] → Forall tradable es →
  ∃ e0 a0, e0 ∈ es ∧ average e0 = Fin a0
    ∧ Forall (λ e, ∀ a, average e = Fin a → a0 ≤ a) es.
Proof.
  intros Hne Hall. induction Hall as [|e es (a & v & Ha & Hv & Hv0) Hall IH]; [done|].
  destruct es as [|e' es'].
  - exists e, a. split; [left|]. split; [done|]. constructor; [|constructor].
    intros a' Ha'. rewrite Ha in Ha'. injection Ha' as <-. apply Qcle_refl.
  - destruct IH as (e0 & a0 & Hin & Ha0 & Hmin); [done|].
    destruct (decide (a ≤ a0)) as [Hle|Hgt].
    + exists e, a. split; [left|]. split; [done|]. constructor.
      * intros a' Ha'. rewrite Ha in Ha'. injection Ha' as <-. apply Qcle_refl.
      * eapply Forall_impl; [exact Hmin|]. simpl. intros e1 H1 a1 Ha1.
        by trans a0; [|apply H1].
    + exists e0, a0. split; [by right|]. split; [done|]. constructor; [|done].
      intros a' Ha'. rewrite Ha in Ha'. injection Ha' as <-.
      apply Qclt_le_weak. by apply Qclt_nge.
Qed.

Lemma dearest_point (es : list entry) :
  es ≠ [] → Forall tradable es →
  ∃ e0 a0, e0 ∈ es ∧ average e0 = Fin a0
    ∧ Forall (λ e, ∀ a, average e = Fin a → a ≤ a0) es.
Proof.
  intros Hne Hall. induction Hall as [|e es (a & v & Ha & Hv & Hv0) Hall IH]; [done|].
  destruct es as [|e' es'].
  - exists e, a. split; [left|]. split; [done|]. constructor; [|constructor].
    intros a' Ha'. rewrite Ha in Ha'. injection Ha' as <-. apply Qcle_refl.
  - destruct IH as (e0 & a0 & Hin & Ha0 & Hmax); [done|].
    destruct (decide (a0 ≤ a)) as [Hle|Hgt].
    + exists e, a. split; [left|]. split; [done|]. constructor.
      * intros a' Ha'. rewrite Ha in Ha'. injection Ha' as <-. apply Qcle_refl.
      * eapply Forall_impl; [exact Hmax|]. simpl. intros e1 H1 a1 Ha1.
        by trans a0; [apply H1|].
    + exists e0, a0. split; [by right|]. split; [done|]. constructor; [|done].
      intros a' Ha'. rewrite Ha in Ha'. injection Ha' as <-.
      apply Qclt_le_weak. by apply Qclt_nge.
Qed.

(** The aggregated point of a date, from the points of that date. *)
Lemma aggregated_point (hist : list (N * list (N * list entry))) (t : N)
    (out : list entry) (o : entry) :
  aggregateRegionData hist !! t = Some out → o ∈ out →
  on_date (date o) (points_of t hist) ≠ []
  ∧ o = finalize (foldl accumulate (fresh (date o)) (on_date (date o) (points_of t hist))).
Proof.
  rewrite aggregateRegionData_lookup. intros Hout Ho.
  apply fmap_Some in Hout as (byDate & Ht & ->).
  unfold series_of in Ho. apply list_elem_of_fmap in Ho as (d & -> & Hd).
  apply sorted_keys_elem_of in Hd as [agg Hagg].
  rewrite (lookup_total_correct _ _ _ Hagg).
  pose proof (accumulators_date hist t byDate d agg Ht Hagg) as Hdate.
  cbn [finalize date]. rewrite Hdate.
  pose proof (cell_accumulators hist t d) as Hcell.
  unfold cell in Hcell. rewrite Ht in Hcell. simpl in Hcell. rewrite Hagg in Hcell.
  destruct (on_date d (points_of t hist)) as [|e es]; simpl in Hcell; [done|].
  destruct (inherited d); [done|]. injection Hcell as ->. done.
Qed.

End WeightedAverage.

Section AggregatorWitnesses.
Import Aggregator.

Lemma aggregated_dates_witness :
  (is_Some (aggregateRegionData sample_history !! 34%N) ↔ listed 34 sample_history)
  ∧ ∀ out, aggregateRegionData sample_history !! 34%N = Some out →
      (∀ d, d ∈ date <$> out ↔ d ∈ date <$> points_of 34 sample_history)
      ∧ StronglySorted String_lt (date <$> out).
Proof.
  apply (aggregated_dates sample_history 34).
  apply Forall_forall. repeat constructor.
Defined.

End AggregatorWitnesses.

(** ** Region aggregator in rounded arithmetic *)

Section RoundingFacts.
Import Rounded.

Lemma round_half_even_near (x : Q) :
  (x - (1 # 2) <= inject_Z (round_half_even x) <= x + (1 # 2))%Q.
Proof.
  unfold round_half_even.
  pose proof (Qfloor_le x) as Hlo. pose proof (Qlt_floor x) as Hhi.
  rewrite inject_Z_plus in Hhi. change (inject_Z 1) with 1%Q in Hhi.
  destruct (Qcompare_spec (x - inject_Z (Qfloor x)) (1 # 2)) as [Heq|Hlt|Hgt].
  - destruct (Z.even (Qfloor x)); [|rewrite inject_Z_plus; change (inject_Z 1) with 1%Q]; lra.
  - lra.
  - rewrite inject_Z_plus. change (inject_Z 1) with 1%Q. lra.
Qed.

Lemma binade_le (x : Q) : (0 < x)%Q → (2 ^ binade x <= x)%Q.
Proof.
  intros Hx. unfold binade.
  destruct (Qle_bool _ x) eqn:Hle; [by apply Qle_bool_iff|]. clear Hle.
  destruct x as [n d]. cbn [Qnum Qden].
  assert (Hn : (0 < n)%Z).
  { unfold Qlt in Hx. simpl in Hx. lia. }
  destruct (Z.log2_spec n Hn) as [Hn1 _].
  destruct (Z.log2_spec (Z.pos d) (Pos2Z.is_pos d)) as [_ Hd2].
  pose proof (Z.log2_nonneg n) as Hln. pose proof (Z.log2_nonneg (Z.pos d)) as Hld.
  set (ln := Z.log2 n) in *. set (ld := Z.log2 (Z.pos d)) in *.
  replace (ln - ld - 1)%Z with (ln - Z.succ ld)%Z by lia.
  rewrite Qpower_minus by done.
  rewrite <-(Zpower_Qpower 2 ln), <-(Zpower_Qpower 2 (Z.succ ld)) by lia.
  rewrite (Qmake_Qdiv n d).
  assert (H2 : (0 < 2 ^ Z.succ ld)%Z) by (apply Z.pow_pos_nonneg; lia).
  assert (H1 : (0 < 2 ^ ln)%Z) by (apply Z.pow_pos_nonneg; lia).
  apply Qle_shift_div_l.
  { change 0%Q with (inject_Z 0). rewrite <-Zlt_Qlt. lia. }
  unfold Qdiv. rewrite <-Qmult_assoc, (Qmult_comm (/ _)), Qmult_assoc.
  apply Qle_shift_div_r.
  { change 0%Q with (inject_Z 0). rewrite <-Zlt_Qlt. lia. }
  rewrite <-!inject_Z_mult, <-Zle_Qle. nia.
Qed.

Lemma binade_lt (x : Q) : (0 < x)%Q → (x < 2 ^ (binade x + 1))%Q.
Proof.
  intros Hx. unfold binade.
  destruct (Qle_bool _ x) eqn:Hle.
  - clear Hle. destruct x as [n d]. cbn [Qnum Qden].
    assert (Hn : (0 < n)%Z).
    { unfold Qlt in Hx. simpl in Hx. lia. }
    destruct (Z.log2_spec n Hn) as [_ Hn2].
    destruct (Z.log2_spec (Z.pos d) (Pos2Z.is_pos d)) as [Hd1 _].
    pose proof (Z.log2_nonneg n) as Hln. pose proof (Z.log2_nonneg (Z.pos d)) as Hld.
    set (ln := Z.log2 n) in *. set (ld := Z.log2 (Z.pos d)) in *.
    replace (ln - ld + 1)%Z with (Z.succ ln - ld)%Z by lia.
    rewrite Qpower_minus by done.
    rewrite <-(Zpower_Qpower 2 (Z.succ ln)), <-(Zpower_Qpower 2 ld) by lia.
    rewrite (Qmake_Qdiv n d).
    assert (H2 : (0 < 2 ^ ld)%Z) by (apply Z.pow_pos_nonneg; lia).
    apply Qlt_shift_div_r.
    { change 0%Q with (inject_Z 0). rewrite <-Zlt_Qlt. lia. }
    unfold Qdiv. rewrite <-Qmult_assoc, (Qmult_comm (/ _)), Qmult_assoc.
    apply Qlt_shift_div_l.
    { change 0%Q with (inject_Z 0). rewrite <-Zlt_Qlt. lia. }
    rewrite <-!inject_Z_mult, <-Zlt_Qlt. nia.
  - replace (Z.log2 (Qnum x) - Z.log2 (Z.pos (Qden x)) - 1 + 1)%Z
      with (Z.log2 (Qnum x) - Z.log2 (Z.pos (Qden x)))%Z by lia.
    apply Qnot_le_lt. intros Hle'. apply Qle_bool_iff in Hle'. congruence.
Qed.

(** In the normal range, and up to the last binade, the rounding of
    binary64 has a relative error of at most [2 ^ -53]. *)
Lemma binary64_pos_near (x : Q) :
  (2 ^ (-1022) <= x)%Q → (x <= 2 ^ 1023)%Q →
  ∃ y : Q, binary64_pos x = Fin (Q2Qc y)
    ∧ ((1 - (1 # 9007199254740992)) * x <= y)%Q
    ∧ (y <= (1 + (1 # 9007199254740992)) * x)%Q.
Proof.
  intros Hmin Hmax.
  assert (Hx : (0 < x)%Q).
  { eapply Qlt_le_trans; [|exact Hmin]. by apply Qpower_0_lt. }
  unfold binary64_pos.
  pose proof (binade_le x Hx) as He. pose proof (binade_lt x Hx) as He'.
  assert (Hnormal : (-1022 <= binade x)%Z).
  { assert (H : (-1022 < binade x + 1)%Z); [|lia].
    apply (Qpower_lt_compat_l_inv 2); [|done]. by eapply Qle_lt_trans. }
  rewrite Z.max_l by done.
  set (e := binade x) in *.
  assert (Hulp : (2 ^ (e - 52) == 2 ^ e * (1 # 4503599627370496))%Q).
  { unfold Z.sub. rewrite Qpower_plus by done. apply Qmult_comp; reflexivity. }
  assert (Hpos : (0 < 2 ^ (e - 52))%Q) by (by apply Qpower_0_lt).
  set (ulp := (2 ^ (e - 52))%Q) in *.
  pose proof (round_half_even_near (x / ulp)) as [Hlo Hhi].
  set (r := inject_Z (round_half_even (x / ulp))) in *.
  assert (Hx' : (x / ulp * ulp == x)%Q).
  { rewrite Qmult_comm. apply Qmult_div_r. lra. }
  assert (Hlo' : ((x / ulp - (1 # 2)) * ulp <= r * ulp)%Q)
    by (apply Qmult_le_compat_r; lra).
  assert (Hhi' : (r * ulp <= (x / ulp + (1 # 2)) * ulp)%Q)
    by (apply Qmult_le_compat_r; lra).
  rewrite Qmult_plus_distr_l in Hhi'.
  assert (Hlo'' : (x / ulp * ulp - (1 # 2) * ulp <= r * ulp)%Q) by lra.
  rewrite Hx' in Hhi', Hlo''.
  assert (Htop : (2 ^ 1024 == 2 * 2 ^ 1023)%Q).
  { change 1024%Z with (1 + 1023)%Z. by rewrite Qpower_plus. }
  assert (Htop' : (0 < 2 ^ 1023)%Q) by (by apply Qpower_0_lt).
  destruct (Qle_bool (2 ^ 1024) (r * ulp)) eqn:Hover.
  { apply Qle_bool_iff in Hover. rewrite Htop in Hover.
    generalize dependent (2 ^ 1023)%Q. intros. lra. }
  exists (r * ulp)%Q. split; [done|]. split; lra.
Qed.

(** Zero and every number from the smallest normal one up to the last
    binade are rounded within the unit roundoff: the roundings of a date
    whose exact intermediate results stay in that range meet
    [rounds_within]. *)
Lemma binary64_accurate (x : Qc) :
  x = 0 ∨ smallest_normal ≤ x → x ≤ largest_binade →
  accurate_at binary64 unit_roundoff (Fin x).
Proof.
  intros [->|Hmin] Hmax q [= <-] _.
  { exists 0. split; [done|]. rewrite !Qcmult_0_r. done. }
  assert (Hx : 0 < x).
  { eapply Qclt_le_trans; [|exact Hmin]. by vm_compute. }
  unfold binary64. apply Qcgt_alt in Hx as Hc. rewrite Hc.
  destruct (binary64_pos_near x) as (y & -> & Hlo & Hhi).
  { unfold Qcle, smallest_normal, Q2Qc in Hmin. cbn [this] in Hmin.
    by rewrite Qred_correct in Hmin. }
  { unfold Qcle, largest_binade, Q2Qc in Hmax. cbn [this] in Hmax.
    by rewrite Qred_correct in Hmax. }
  exists (Q2Qc y). split; [done|].
  unfold Qcle, unit_roundoff.
  repeat (progress (unfold Qcmult, Qcplus, Qcminus, Qcopp, Q2Qc; cbn [this];
                    rewrite ?Qred_correct)).
  split; lra.
Qed.

End RoundingFacts.

Section RoundedAccumulation.
Import Aggregator.
Variable rnd : number → number.

Lemma rounded_foldl_accumulate_date (es : list entry) (agg : Acc.t) :
  Acc.date (foldl (Rounded.accumulate rnd) agg es) = Acc.date agg.
Proof. revert agg. induction es as [|e es IH]; intros agg; [done|]. simpl. by rewrite IH. Qed.

Lemma rounded_merge_points_app (d : string) (start : option Acc.t) (es1 es2 : list entry) :
  Rounded.merge_points rnd d (Rounded.merge_points rnd d start es1) es2
  = Rounded.merge_points rnd d start (es1 ++ es2).
Proof.
  destruct start as [agg|]; simpl.
  - by rewrite foldl_app.
  - destruct es1 as [|e1 es1]; simpl; [done|].
    destruct (inherited d) eqn:Hinh; simpl.
    + destruct es2; simpl; [done|]. by rewrite Hinh.
    + by rewrite foldl_app.
Qed.

Lemma rounded_foldl_add_entry_lookup (es : list entry) (byDate : gmap string Acc.t)
    (d : string) :
  foldl (Rounded.add_entry rnd) byDate es !! d
  = Rounded.merge_points rnd d (byDate !! d) (on_date d es).
Proof.
  revert byDate. induction es as [|e es IH]; intros byDate.
  - simpl. by destruct (byDate !! d).
  - cbn [foldl]. rewrite IH. unfold on_date. rewrite filter_cons.
    unfold Rounded.add_entry. destruct (decide (date e = d)) as [<-|Hne].
    + destruct (byDate !! date e) as [agg|] eqn:Hlook.
      * by rewrite lookup_insert_eq.
      * simpl. destruct (inherited (date e)) eqn:Hinh.
        -- rewrite Hlook. simpl. rewrite Hinh. by destruct (filter _ es).
        -- by rewrite lookup_insert_eq.
    + destruct (byDate !! date e) as [agg|] eqn:Hlook.
      * by rewrite lookup_insert_ne.
      * destruct (inherited (date e)); [done|]. by rewrite lookup_insert_ne.
Qed.

Lemma rounded_cell_add_type (acc : gmap N (gmap string Acc.t)) (item : N * list entry)
    (t : N) (d : string) :
  cell (Rounded.add_type rnd acc item) t d
  = Rounded.merge_points rnd d (cell acc t d) (on_date d (points_of_region t [item])).
Proof.
  unfold cell, Rounded.add_type, points_of_region. simpl. rewrite app_nil_r.
  destruct (decide (item.1 = t)) as [<-|Hne].
  - rewrite lookup_insert_eq. simpl. apply rounded_foldl_add_entry_lookup.
  - rewrite lookup_insert_ne by done. simpl.
    by destruct (default ∅ (acc !! t) !! d).
Qed.

Lemma rounded_cell_add_region (region : N * list (N * list entry))
    (acc : gmap N (gmap string Acc.t)) (t : N) (d : string) :
  cell (Rounded.add_region rnd acc region) t d
  = Rounded.merge_points rnd d (cell acc t d) (on_date d (points_of_region t region.2)).
Proof.
  unfold Rounded.add_region. generalize (region.2). intros items. revert acc.
  induction items as [|item items IH]; intros acc.
  - simpl. by destruct (cell acc t d).
  - cbn [foldl]. rewrite IH, rounded_cell_add_type, rounded_merge_points_app, <-on_date_app.
    by rewrite <-points_of_region_app.
Qed.

Lemma rounded_cell_foldl_add_region (hist : list (N * list (N * list entry)))
    (acc : gmap N (gmap string Acc.t)) (t : N) (d : string) :
  cell (foldl (Rounded.add_region rnd) acc hist) t d
  = Rounded.merge_points rnd d (cell acc t d) (on_date d (points_of t hist)).
Proof.
  revert acc. induction hist as [|region hist IH]; intros acc.
  - simpl. by destruct (cell acc t d).
  - cbn [foldl]. rewrite IH, rounded_cell_add_region, rounded_merge_points_app, <-on_date_app.
    f_equal.
Qed.

Lemma rounded_cell_accumulators (hist : list (N * list (N * list entry))) (t : N)
    (d : string) :
  cell (Rounded.accumulators rnd hist) t d
  = Rounded.merge_points rnd d None (on_date d (points_of t hist)).
Proof. unfold Rounded.accumulators. by rewrite rounded_cell_foldl_add_region. Qed.

(** The aggregated point of a date, from the points of that date: the
    grouping by date does not depend on the arithmetic. *)
Lemma rounded_aggregated_point (hist : list (N * list (N * list entry))) (t : N)
    (out : list entry) (o : entry) :
  Rounded.aggregateRegionData rnd hist !! t = Some out → o ∈ out →
  on_date (date o) (points_of t hist) ≠ []
  ∧ o = Rounded.finalize rnd
          (foldl (Rounded.accumulate rnd) (fresh (date o))
             (on_date (date o) (points_of t hist))).
Proof.
  unfold Rounded.aggregateRegionData. rewrite lookup_fmap. intros Hout Ho.
  apply fmap_Some in Hout as (byDate & Ht & ->).
  unfold Rounded.series_of in Ho. apply list_elem_of_fmap in Ho as (d & -> & Hd).
  apply sorted_keys_elem_of in Hd as [agg Hagg].
  rewrite (lookup_total_correct _ _ _ Hagg).
  pose proof (rounded_cell_accumulators hist t d) as Hcell.
  unfold cell in Hcell. rewrite Ht in Hcell. simpl in Hcell. rewrite Hagg in Hcell.
  assert (Hagg' : on_date d (points_of t hist) ≠ []
                  ∧ agg = foldl (Rounded.accumulate rnd) (fresh d)
                            (on_date d (points_of t hist))).
  { destruct (on_date d (points_of t hist)) as [|e es]; simpl in Hcell; [done|].
    destruct (inherited d); [done|]. by injection Hcell as ->. }
  destruct Hagg' as [Hne Hagg'].
  assert (Hdate : Acc.date agg = d).
  { rewrite Hagg'. by rewrite rounded_foldl_accumulate_date. }
  cbn [Rounded.finalize date]. rewrite Hdate. split; [done|]. by rewrite <-Hagg'.
Qed.

End RoundedAccumulation.

(** With the identity for rounding the module is the exact aggregator. *)
Lemma rounded_exact (hist : list (N * list (N * list entry))) :
  Rounded.aggregateRegionData (λ x, x) hist = Aggregator.aggregateRegionData hist.
Proof. reflexivity. Qed.

Section RoundedAverage.
Import Aggregator.
Variable rnd : number → number.
Variable u : Qc.
Hypothesis u_nonneg : 0 ≤ u.
Hypothesis u_small : u ≤ 1.

Lemma Qcmult_le_0_compat (x y : Qc) : 0 ≤ x → 0 ≤ y → 0 ≤ x * y.
Proof. intros Hx Hy. rewrite <-(Qcmult_0_l y). by apply Qcmult_le_compat_r. Qed.

Lemma Qcpower_ge_1 (a : Qc) (k : nat) : 1 ≤ a → 1 ≤ a ^ k.
Proof.
  intros Ha. induction k as [|k IH]; simpl; [apply Qcle_refl|].
  trans (1 * a ^ k); [by rewrite Qcmult_1_l|].
  apply Qcmult_le_compat_r; [done|]. by trans 1.
Qed.

Lemma Qcpower_le_1 (b : Qc) (k : nat) : 0 ≤ b → b ≤ 1 → 0 ≤ b ^ k ∧ b ^ k ≤ 1.
Proof.
  intros Hb0 Hb1. induction k as [|k [IH0 IH1]]; simpl; [done|]. split.
  - by apply Qcmult_le_0_compat.
  - trans (1 * b ^ k); [by apply Qcmult_le_compat_r|]. by rewrite Qcmult_1_l.
Qed.

Lemma Qcmult_le_compat_l (x y z : Qc) : x ≤ y → 0 ≤ z → z * x ≤ z * y.
Proof. intros Hxy Hz. rewrite !(Qcmult_comm z). by apply Qcmult_le_compat_r. Qed.

(** One rounded addition to a running sum, from above and from below. *)
Lemma rounded_sum_grows (c A S s X q y : Qc) :
  0 ≤ c → X ≤ A * S → q ≤ A * s → y ≤ c * (X + q) → y ≤ c * A * (S + s).
Proof.
  intros Hc HX Hq Hy. trans (c * (X + q)); [done|].
  replace (c * A * (S + s)) with (c * (A * S + A * s)) by ring.
  apply Qcmult_le_compat_l; [|done]. by apply Qcplus_le_compat.
Qed.

Lemma rounded_sum_shrinks (c A S s X q y : Qc) :
  0 ≤ c → A * S ≤ X → A * s ≤ q → c * (X + q) ≤ y → c * A * (S + s) ≤ y.
Proof.
  intros Hc HX Hq Hy. trans (c * (X + q)); [|done].
  replace (c * A * (S + s)) with (c * (A * S + A * s)) by ring.
  apply Qcmult_le_compat_l; [|done]. by apply Qcplus_le_compat.
Qed.

Lemma one_plus_u : 1 ≤ 1 + u.
Proof. rewrite <-(Qcplus_0_r 1) at 1. by apply Qcplus_le_compat. Qed.

Lemma one_minus_u : 0 ≤ 1 - u ∧ 1 - u ≤ 1.
Proof.
  split.
  - unfold Qcminus. rewrite <-(Qcplus_opp_r u). by apply Qcplus_le_compat.
  - unfold Qcminus. rewrite <-(Qcplus_0_r 1) at 2. apply Qcplus_le_compat; [done|].
    by apply (Qcopp_le_compat 0 u).
Qed.

(** One contribution keeps the running sums within the rounding error of
    the exact sums. *)
Lemma sums_within_step (lo hi : Qc) (k : nat) (V W a v : Qc) :
  0 ≤ lo → lo ≤ a → a ≤ hi → 0 ≤ v →
  Rounded.sums_within u lo hi k V W →
  Rounded.accurate_at rnd u (Fin V + Fin v)%js →
  Rounded.accurate_at rnd u (Fin a * Fin v)%js →
  Rounded.accurate_at rnd u (Fin W + rnd (Fin a * Fin v)%js)%js →
  ∃ V' W' : Qc,
    rnd (Fin V + Fin v)%js = Fin V'
    ∧ rnd (Fin W + rnd (Fin a * Fin v)%js)%js = Fin W'
    ∧ Rounded.sums_within u lo hi (S k) V' W'.
Proof.
  intros Hlo0 Hlo Hhi Hv (SV & SW & HSV & HloS & HhiS & HVlo & HVhi & HWlo & HWhi)
    HaccV Haccp HaccW.
  pose proof one_plus_u as Hα. destruct one_minus_u as [Hβ0 Hβ1].
  pose proof (Qcpower_ge_1 (1 + u) k Hα) as HA.
  pose proof (Qcpower_ge_1 (1 + u) (S k) Hα) as HA'.
  destruct (Qcpower_le_1 (1 - u) k Hβ0 Hβ1) as [HB0 HB1].
  destruct (Qcpower_le_1 (1 - u) (S k) Hβ0 Hβ1) as [HB0' HB1'].
  assert (Ha : 0 ≤ a) by (by trans lo).
  assert (Hav : 0 ≤ a * v) by (by apply Qcmult_le_0_compat).
  assert (HSW : 0 ≤ SW).
  { trans (lo * SV); [|done]. by apply Qcmult_le_0_compat. }
  assert (HV : 0 ≤ V).
  { trans ((1 - u) ^ k * SV); [|done]. by apply Qcmult_le_0_compat. }
  assert (HW : 0 ≤ W).
  { trans ((1 - u) ^ S k * SW); [|done]. by apply Qcmult_le_0_compat. }
  destruct (HaccV (V + v) eq_refl) as (V' & HV' & HV'lo & HV'hi).
  { rewrite <-(Qcplus_0_r 0). by apply Qcplus_le_compat. }
  destruct (Haccp (a * v) eq_refl Hav) as (p & Hp' & Hplo & Hphi).
  assert (Hp : 0 ≤ p).
  { trans ((1 - u) * (a * v)); [|done]. by apply Qcmult_le_0_compat. }
  rewrite Hp' in HaccW |- *.
  destruct (HaccW (W + p) eq_refl) as (W' & HW' & HW'lo & HW'hi).
  { rewrite <-(Qcplus_0_r 0). by apply Qcplus_le_compat. }
  exists V', W'. split; [done|]. split; [done|].
  exists (SV + v), (SW + a * v). repeat split.
  - rewrite <-(Qcplus_0_r 0). by apply Qcplus_le_compat.
  - rewrite Qcmult_plus_distr_r. apply Qcplus_le_compat; [done|].
    by apply Qcmult_le_compat_r.
  - rewrite Qcmult_plus_distr_r. apply Qcplus_le_compat; [done|].
    by apply Qcmult_le_compat_r.
  - change ((1 - u) ^ S k) with ((1 - u) * (1 - u) ^ k).
    apply (rounded_sum_shrinks _ _ _ _ V v); [done|done| |done].
    trans (1 * v); [by apply Qcmult_le_compat_r|]. rewrite Qcmult_1_l. apply Qcle_refl.
  - change ((1 + u) ^ S k) with ((1 + u) * (1 + u) ^ k).
    apply (rounded_sum_grows _ _ _ _ V v); [by trans 1|done| |done].
    trans (1 * v); [rewrite Qcmult_1_l; apply Qcle_refl|by apply Qcmult_le_compat_r].
  - change ((1 - u) ^ S (S k)) with ((1 - u) * (1 - u) ^ S k).
    apply (rounded_sum_shrinks _ _ _ _ W p); [done|done| |done].
    trans ((1 - u) * (a * v)); [|done].
    change ((1 - u) ^ S k) with ((1 - u) * (1 - u) ^ k).
    rewrite <-(Qcmult_1_r (1 - u)) at 3. rewrite <-!Qcmult_assoc.
    apply Qcmult_le_compat_l; [|done]. rewrite Qcmult_1_l.
    trans (1 * (a * v)); [by apply Qcmult_le_compat_r|]. rewrite Qcmult_1_l. apply Qcle_refl.
  - change ((1 + u) ^ S (S k)) with ((1 + u) * (1 + u) ^ S k).
    apply (rounded_sum_grows _ _ _ _ W p); [by trans 1|done| |done].
    trans ((1 + u) * (a * v)); [done|].
    change ((1 + u) ^ S k) with ((1 + u) * (1 + u) ^ k).
    rewrite <-(Qcmult_1_r (1 + u)) at 1. rewrite <-!Qcmult_assoc.
    apply Qcmult_le_compat_l; [|by trans 1]. rewrite Qcmult_1_l.
    trans (1 * (a * v)); [rewrite Qcmult_1_l; apply Qcle_refl|].
    by apply Qcmult_le_compat_r.
Qed.

Lemma sums_within_foldl (lo hi : Qc) (es : list entry) :
  0 ≤ lo →
  Forall Rounded.quoted es →
  Forall (λ e, ∀ a, average e = Fin a → lo ≤ a ∧ a ≤ hi) es →
  ∀ (agg : Acc.t) (k : nat) (V W : Qc),
    Acc.totalVolume agg = Fin V → Acc.weightedAvgSum agg = Fin W →
    Rounded.sums_within u lo hi k V W →
    Forall (Rounded.accurate_at rnd u) (Rounded.roundings rnd agg es) →
    ∃ V' W' : Qc,
      Acc.totalVolume (foldl (Rounded.accumulate rnd) agg es) = Fin V'
      ∧ Acc.weightedAvgSum (foldl (Rounded.accumulate rnd) agg es) = Fin W'
      ∧ Rounded.sums_within u lo hi (k + length es) V' W'
      ∧ Rounded.accurate_at rnd u (Fin W' / Fin V')%js.
Proof.
  intros Hlo0. induction 1 as [|e es (a & v & Ha & Hv & Ha0 & Hv0) _ IH];
    intros Hbounds agg k V W HV HW Hin Hacc.
  - exists V, W. rewrite Nat.add_0_r. repeat (split; [done|]).
    cbn [Rounded.roundings] in Hacc. apply Forall_cons in Hacc as [Hacc _].
    by rewrite HV, HW in Hacc.
  - apply Forall_cons in Hbounds as [Hb Hbounds]. destruct (Hb a Ha) as [Hlo Hhi].
    cbn [Rounded.roundings] in Hacc. rewrite HV, HW, Ha, Hv in Hacc.
    apply Forall_cons in Hacc as [HaccV Hacc].
    apply Forall_cons in Hacc as [Haccp Hacc].
    apply Forall_cons in Hacc as [HaccW Hacc].
    destruct (sums_within_step lo hi k V W a v Hlo0 Hlo Hhi Hv0 Hin HaccV Haccp HaccW)
      as (V1 & W1 & HV1 & HW1 & Hin1).
    cbn [foldl length]. rewrite Nat.add_succ_r.
    apply (IH Hbounds _ (S k) V1 W1); [| |done|done].
    + cbn [Rounded.accumulate Acc.totalVolume]. by rewrite HV, Hv.
    + cbn [Rounded.accumulate Acc.weightedAvgSum]. by rewrite HW, Ha, Hv.
Qed.

Lemma quoted_tradable (e : entry) : Rounded.quoted e → tradable e.
Proof. intros (a & v & Ha & Hv & _ & Hv0). by exists a, v. Qed.

Lemma Qcmult_le_reg_r (x y z : Qc) : 0 < z → x * z ≤ y * z → x ≤ y.
Proof. intros Hz Hxy. by apply Qcmult_lt_0_le_reg_r with z. Qed.

(** C10, as the code behaves: on a date whose contributing points have
    finite non-negative prices and volumes and whose total volume is
    positive, the aggregated average lies between the lowest and the
    highest contributing average up to the rounding of the arithmetic.
    When each rounding made for the date has a relative error of at most
    [u] (in binary64 [2 ^ -53], as long as nothing overflows or
    underflows), the average of [n] contributions is at least the lowest
    contributing average times [(1 - u) ^ (n + 2) / (1 + u) ^ n] and at
    most the highest times [(1 + u) ^ (n + 2) / (1 - u) ^ n]. *)
Theorem rounded_average_between (hist : list (N * list (N * list entry))) (t : N)
    (out : list entry) (o : entry) :
  Rounded.aggregateRegionData rnd hist !! t = Some out → o ∈ out →
  let es := on_date (date o) (points_of t hist) in
  let n := length es in
  Forall Rounded.quoted es →
  Rounded.rounds_within rnd u (date o) es →
  (volume o >? num 0)%js = true →
  ∃ (e_lo e_hi : entry) (a_lo a_hi a : Qc),
    e_lo ∈ es ∧ e_hi ∈ es
    ∧ average e_lo = Fin a_lo ∧ average e_hi = Fin a_hi ∧ average o = Fin a
    ∧ a_lo * (1 - u) ^ (n + 2) ≤ a * (1 + u) ^ n
    ∧ a * (1 - u) ^ n ≤ a_hi * (1 + u) ^ (n + 2).
Proof.
  intros Hout Ho es n Hq Hacc Hvol.
  destruct (rounded_aggregated_point rnd hist t out o Hout Ho) as [Hne Heq].
  fold es in Hne, Heq.
  assert (Htrad : Forall tradable es).
  { eapply Forall_impl; [exact Hq|]. apply quoted_tradable. }
  destruct (cheapest_point es Hne Htrad) as (e_lo & lo & Hin_lo & Ha_lo & Hmin).
  destruct (dearest_point es Hne Htrad) as (e_hi & hi & Hin_hi & Ha_hi & Hmax).
  assert (Hlo0 : 0 ≤ lo).
  { rewrite Forall_forall in Hq. destruct (Hq e_lo Hin_lo) as (a & v & Ha & _ & Ha0 & _).
    congruence. }
  assert (Hbounds : Forall (λ e, ∀ a, average e = Fin a → lo ≤ a ∧ a ≤ hi) es).
  { rewrite Forall_forall in Hmin, Hmax |- *. intros e He a Ha. split; eauto. }
  destruct (sums_within_foldl lo hi es Hlo0 Hq Hbounds (fresh (date o)) 0 0 0)
    as (V & W & HV & HW & (SV & SW & HSV & HloS & HhiS & HVlo & HVhi & HWlo & HWhi)
        & Hlast).
  { cbn [fresh Acc.totalVolume]. unfold num. by rewrite Qc_of_Z_0. }
  { cbn [fresh Acc.weightedAvgSum]. unfold num. by rewrite Qc_of_Z_0. }
  { exists 0, 0. rewrite !Qcmult_0_r. done. }
  { exact Hacc. }
  rewrite Nat.add_0_l in HVlo, HVhi, HWlo, HWhi. fold n in HVlo, HVhi, HWlo, HWhi.
  pose proof one_plus_u as Hα. destruct one_minus_u as [Hβ0 Hβ1].
  pose proof (Qcpower_ge_1 (1 + u) n Hα) as HA.
  destruct (Qcpower_le_1 (1 - u) n Hβ0 Hβ1) as [HB0 HB1].
  destruct (Qcpower_le_1 (1 - u) (S n) Hβ0 Hβ1) as [HB0' HB1'].
  assert (HoV : volume o = Fin V) by (by rewrite Heq).
  assert (HVpos : 0 < V).
  { rewrite HoV in Hvol. unfold js_gt, num in Hvol. apply js_lt_fin in Hvol.
    by rewrite Qc_of_Z_0 in Hvol. }
  assert (HVnz : V ≠ 0) by (intros ->; by apply (irreflexivity Qclt 0)).
  assert (HSVpos : 0 < SV).
  { apply Qcnot_le_lt. intros HSV'. assert (SV = 0) as -> by (by apply Qcle_antisym).
    rewrite Qcmult_0_r in HVhi. by apply (Qcle_not_lt _ _ HVhi). }
  assert (HSW : 0 ≤ SW).
  { trans (lo * SV); [|done]. by apply Qcmult_le_0_compat. }
  assert (HW0 : 0 ≤ W).
  { trans ((1 - u) ^ S n * SW); [|done]. by apply Qcmult_le_0_compat. }
  assert (Hquot : 0 ≤ W / V).
  { apply Qc_le_div; [done|]. by rewrite Qcmult_0_l. }
  rewrite js_div_fin in Hlast by done.
  destruct (Hlast (W / V) eq_refl Hquot) as (a & Hrnd & Halo & Hahi).
  assert (HoA : average o = Fin a).
  { rewrite Heq in Hvol |- *. cbn [Rounded.finalize average volume] in *. rewrite Hvol.
    rewrite HV, HW, js_div_fin by done. exact Hrnd. }
  assert (Ha0 : 0 ≤ a).
  { trans ((1 - u) * (W / V)); [|done]. by apply Qcmult_le_0_compat. }
  assert (HWV : W / V * V = W).
  { rewrite Qcmult_comm. by apply Qcmult_div_r. }
  exists e_lo, e_hi, lo, hi, a. repeat (split; [done|]).
  replace (n + 2)%nat with (S (S n)) by lia. split.
  - apply Qcmult_le_reg_r with SV; [done|].
    trans (a * V).
    + trans ((1 - u) * W).
      * change ((1 - u) ^ S (S n)) with ((1 - u) * (1 - u) ^ S n).
        replace (lo * ((1 - u) * (1 - u) ^ S n) * SV)
          with ((1 - u) * ((1 - u) ^ S n * (lo * SV))) by ring.
        apply Qcmult_le_compat_l; [|done].
        trans ((1 - u) ^ S n * SW); [|done]. by apply Qcmult_le_compat_l.
      * rewrite <-HWV at 1. rewrite Qcmult_assoc. by apply Qcmult_le_compat_r, Qclt_le_weak.
    + rewrite <-Qcmult_assoc. by apply Qcmult_le_compat_l.
  - apply Qcmult_le_reg_r with SV; [done|].
    trans (a * V).
    + rewrite <-Qcmult_assoc. by apply Qcmult_le_compat_l.
    + trans ((1 + u) * W).
      * rewrite <-HWV at 1. rewrite Qcmult_assoc. by apply Qcmult_le_compat_r, Qclt_le_weak.
      * change ((1 + u) ^ S (S n)) with ((1 + u) * (1 + u) ^ S n).
        replace (hi * ((1 + u) * (1 + u) ^ S n) * SV)
          with ((1 + u) * ((1 + u) ^ S n * (hi * SV))) by ring.
        apply Qcmult_le_compat_l; [|by trans 1].
        trans ((1 + u) ^ S n * SW); [done|]. apply Qcmult_le_compat_l; [done|].
        trans 1; [done|]. by apply Qcpower_ge_1.
Qed.

End RoundedAverage.

Section RoundedWitnesses.
Import Aggregator.

Lemma rounded_average_between_witness :
  let es := on_date (date Rounded.tenth_point) (points_of 34 Rounded.tenth_history) in
  let u := Rounded.unit_roundoff in
  ∃ (e_lo e_hi : entry) (a_lo a_hi a : Qc),
    e_lo ∈ es ∧ e_hi ∈ es
    ∧ average e_lo = Fin a_lo ∧ average e_hi = Fin a_hi
    ∧ average Rounded.tenth_point = Fin a
    ∧ a_lo * (1 - u) ^ (length es + 2) ≤ a * (1 + u) ^ length es
    ∧ a * (1 - u) ^ length es ≤ a_hi * (1 + u) ^ (length es + 2).
Proof.
  apply (rounded_average_between Rounded.binary64 Rounded.unit_roundoff)
    with (out := Rounded.tenth_series).
  - by vm_compute.
  - by vm_compute.
  - vm_compute. reflexivity.
  - apply (list_elem_of_lookup_2 _ 0%nat). vm_compute. reflexivity.
  - let l := eval vm_compute in
      (on_date (date Rounded.tenth_point) (points_of 34 Rounded.tenth_history)) in
    change (Forall Rounded.quoted l).
    repeat (apply Forall_cons_2;
            [eexists _, _; split; [reflexivity|]; split; [reflexivity|];
             split; by vm_compute|]).
    apply Forall_nil_2.
  - unfold Rounded.rounds_within.
    let l := eval vm_compute in
      (Rounded.roundings Rounded.binary64 (fresh (date Rounded.tenth_point))
         (on_date (date Rounded.tenth_point) (points_of 34 Rounded.tenth_history))) in
    change (Forall (Rounded.accurate_at Rounded.binary64 Rounded.unit_roundoff) l).
    repeat (apply Forall_cons_2;
            [intros q [= <-] _; eexists; split; [by vm_compute|];
             split; by vm_compute|]).
    apply Forall_nil_2.
  - vm_compute. reflexivity.
Defined.

(** C10 fails as stated: in binary64 two regions quoting 0.1 with volumes
    1 and 2 merge to 0.10000000000000002, above both contributing
    averages. *)
Lemma rounded_average_exceeds :
  ¬ (∀ (hist : list (N * list (N * list entry))) (t : N) (out : list entry) (o : entry),
       Rounded.aggregateRegionData Rounded.binary64 hist !! t = Some out → o ∈ out →
       Forall tradable (on_date (date o) (points_of t hist)) →
       (volume o >? num 0)%js = true →
       ∃ e_lo e_hi,
         e_lo ∈ on_date (date o) (points_of t hist)
         ∧ e_hi ∈ on_date (date o) (points_of t hist)
         ∧ (average e_lo <=? average o)%js = true
         ∧ (average o <=? average e_hi)%js = true).
Proof.
  intros Hclaim.
  destruct (Hclaim Rounded.tenth_history 34%N Rounded.tenth_series Rounded.tenth_point)
    as (e_lo & e_hi & _ & Hin & _ & Hle).
  - vm_compute. reflexivity.
  - apply (list_elem_of_lookup_2 _ 0%nat). vm_compute. reflexivity.
  - let l := eval vm_compute in
      (on_date (date Rounded.tenth_point) (points_of 34 Rounded.tenth_history)) in
    change (Forall tradable l).
    repeat (apply Forall_cons_2;
            [eexists _, _; split; [reflexivity|]; split; [reflexivity|]; by vm_compute|]).
    apply Forall_nil_2.
  - vm_compute. reflexivity.
  - assert (Hall : Forall (λ e, (average Rounded.tenth_point <=? average e)%js = false)
                     (on_date (date Rounded.tenth_point)
                        (points_of 34 Rounded.tenth_history))).
    { let l := eval vm_compute in
        (on_date (date Rounded.tenth_point) (points_of 34 Rounded.tenth_history)) in
      change (Forall (λ e, (average Rounded.tenth_point <=? average e)%js = false) l).
      repeat (apply Forall_cons_2; [by vm_compute|]). apply Forall_nil_2. }
    rewrite Forall_forall in Hall. specialize (Hall e_hi Hin). congruence.
Qed.

(** The values of the example: the double written 0.1 and its successor. *)
Example tenth_merged :
  Rounded.tenth = Fin (Q2Qc (7205759403792794 # 72057594037927936))
  ∧ average Rounded.tenth_point = Fin (Q2Qc (7205759403792795 # 72057594037927936)).
Proof.
  split; vm_compute; f_equal; apply Qc_is_canon; reflexivity.
Qed.

End RoundedWitnesses.


(** ** Incremental synchronisation *)

Section SyncFacts.
Import Sync.
Variable fetch : N → N → N → conditional → fetch_result.

Lemma kept_refl st r t : kept st st r t.
Proof. done. Qed.

Lemma kept_trans st1 st2 st3 r t : kept st1 st2 r t → kept st2 st3 r t → kept st1 st3 r t.
Proof. intros [H1 H2] [H3 H4]. split; congruence. Qed.

Lemma store_lookup_ne {A} (r t r' t' : N) (v : A) (obj : gmap N (gmap N A)) :
  (r', t') ≠ (r, t) →
  store r' t' v obj !! r ≫= (λ m, m !! t) = obj !! r ≫= (λ m, m !! t).
Proof.
  intros Hne. unfold store. destruct (decide (r' = r)) as [->|Hr].
  - rewrite lookup_insert_eq. simpl. rewrite lookup_insert_ne by congruence.
    by destruct (obj !! r).
  - by rewrite lookup_insert_ne.
Qed.

Lemma store_lookup_eq {A} (r t : N) (v : A) (obj : gmap N (gmap N A)) :
  store r t v obj !! r ≫= (λ m, m !! t) = Some v.
Proof. unfold store. rewrite lookup_insert_eq. simpl. by rewrite lookup_insert_eq. Qed.

Lemma init_region_lookup {A} (r t r' : N) (obj : gmap N (gmap N A)) :
  init_region r' obj !! r ≫= (λ m, m !! t) = obj !! r ≫= (λ m, m !! t).
Proof.
  unfold init_region. destruct (obj !! r') eqn:Hr'; [done|].
  destruct (decide (r' = r)) as [->|Hne].
  - rewrite lookup_insert_eq, Hr'. simpl. apply lookup_empty.
  - by rewrite lookup_insert_ne.
Qed.

(** A refresh of another pair, or one that does not end in a replacement,
    keeps the pair. *)
Lemma refresh_other (r t r' t' : N) (st : state) :
  (r', t') ≠ (r, t) → kept st (refresh fetch r' t' st) r t.
Proof.
  intros Hne. unfold refresh, kept, stored_series, stored_token.
  destruct (fetch _ _ _ _) as [resp|]; [|done].
  case_bool_decide; [done|]. destruct (ok resp); [|by case_bool_decide].
  destruct (body resp) as [history|]; [|done]. simpl.
  split; [by apply store_lookup_ne|].
  case_bool_decide; [by apply store_lookup_ne|done].
Qed.





(** A request answered 304 changes neither snapshot map. *)
Lemma refresh_not_modified (r t : N) (st : state) :
  not_modified (answer fetch r t st) = true →
  historyData (refresh fetch r t st) = historyData st
  ∧ etagData (refresh fetch r t st) = etagData st.
Proof.
  unfold answer, not_modified, refresh. cbn [requestCount count_request].
  change (Conditional _ _) with (headers_for st r t).
  destruct (fetch _ _ _ _) as [resp|]; [|done].
  intros H304. by rewrite H304.
Qed.

Lemma item_loop_unchanged (r t r' : N) (items : list (string * N)) (st : state) :
  unchanged_among fetch r t (item_loop_attempts fetch r' items st) →
  kept st (item_loop fetch r' items st) r t.
Proof.
  revert st. induction items as [|[name t'] items IH]; intros st; simpl.
  - intros _. apply kept_refl.
  - case_decide; [intros _; apply kept_refl|].
    intros [Hhead Hrest]%Forall_cons.
    apply kept_trans with (refresh fetch r' t' st); [|by apply IH].
    destruct (decide ((r', t') = (r, t))) as [[= -> ->]|Hne].
    + destruct (refresh_not_modified r t st (Hhead eq_refl)) as [Hh He].
      unfold kept, stored_series, stored_token. by rewrite Hh, He.
    + by apply refresh_other.
Qed.

Lemma region_loop_unchanged (r t : N) (regions items : list (string * N)) (st : state) :
  unchanged_among fetch r t (region_loop_attempts fetch regions items st) →
  kept st (region_loop fetch regions items st) r t.
Proof.
  revert st. induction regions as [|[name r'] regions IH]; intros st; simpl.
  - intros _. apply kept_refl.
  - case_decide; [intros _; apply kept_refl|].
    intros [Hitems Hrest]%Forall_app.
    eapply kept_trans; [|by apply IH].
    eapply kept_trans; [|by apply item_loop_unchanged].
    split; unfold stored_series, stored_token; simpl; apply init_region_lookup.
Qed.


(** C7: when each refresh attempt that the run makes for a pair (the
    request it sends carries the conditional headers built from the cached
    token) is answered 304 Not Modified, the series and the token stored
    for that pair after the run are the ones stored before it.  Only the
    requests of the run are constrained: an endpoint that would send the
    series again to a request without the validator qualifies. *)
Theorem unchanged_pair_is_kept (regions items : list (string * N))
    (history : gmap N (gmap N (list entry))) (etags : gmap N (gmap N cacheToken))
    (r t : N) :
  unchanged_in_run fetch regions items history etags r t →
  let st := State history etags 0 0 0 0 in
  let st' := populate fetch regions items history etags in
  stored_series st' r t = stored_series st r t
  ∧ stored_token st' r t = stored_token st r t.
Proof. apply region_loop_unchanged. Qed.


End SyncFacts.

Section SyncWitnesses.
Import Sync.

(** The endpoint honours [If-None-Match]: it would answer 200 to a request
    without the validator, and answers 304 to the request of the run,
    which carries the cached one. *)
Lemma unchanged_pair_is_kept_witness :
  let fetch := fetch_conditional "W/abc" [Stats.priced "2024-01-02" 6] in
  let st := State sample_stored sample_tokens 0 0 0 0 in
  let st' := populate fetch sample_regions sample_items sample_stored sample_tokens in
  fetch 1%N 10000002%N 34%N (Conditional None None)
    = Resolved (Response 200 (Some [Stats.priced "2024-01-02" 6])
                  (Some "W/abc"%string) None)
  ∧ stored_series st' 10000002 34 = stored_series st 10000002 34
  ∧ stored_token st' 10000002 34 = stored_token st 10000002 34.
Proof.
  split; [reflexivity|].
  apply (unchanged_pair_is_kept (fetch_conditional "W/abc" [Stats.priced "2024-01-02" 6])).
  unfold unchanged_in_run, unchanged_among.
  apply Forall_cons_2; [intros _; vm_compute; reflexivity|apply Forall_nil_2].
Defined.



End SyncWitnesses.

(** ** Series normaliser *)

Section NormalizerFacts.
Import Normalizer.

Lemma sort_insert_Permutation {A} (compareFn : A → A → number) (x : A) (l : list A) :
  sort_insert compareFn x l ≡ₚ x :: l.
Proof.
  induction l as [|y l IH]; cbn [sort_insert]; [reflexivity|].
  destruct (js_gt (compareFn x y) (num 0)); [|reflexivity].
  rewrite IH. apply Permutation_swap.
Qed.

Lemma Array_sort_Permutation {A} (compareFn : A → A → number) (l : list A) :
  Array_sort compareFn l ≡ₚ l.
Proof.
  unfold Array_sort. induction l as [|x l IH]; simpl; [reflexivity|].
  rewrite sort_insert_Permutation. by constructor.
Qed.

(** On numeric timestamps the comparator [a.timestamp - b.timestamp] is
    positive exactly when [b] is strictly earlier than [a]. *)
Lemma compare_numeric (a b : point) :
  numeric a → numeric b →
  if ((timestamp a - timestamp b) >? num 0)%js
  then timestamp_le b a
  else timestamp_le a b.
Proof.
  unfold numeric, timestamp_le, js_gt, js_sub, num.
  destruct (timestamp a) as [x| | |], (timestamp b) as [y| | |]; try done; simpl.
  intros _ _. unfold Qcminus.
  case_bool_decide as Hlt; apply bool_decide_eq_true; rewrite Qc_of_Z_0 in Hlt.
  - apply Qclt_le_weak. by apply Qclt_minus_iff in Hlt.
  - apply Qcle_ngt. intros Hyx. apply Hlt. by apply Qclt_minus_iff in Hyx.
Qed.

Lemma timestamp_le_trans (a b c : point) :
  timestamp_le a b → timestamp_le b c → timestamp_le a c.
Proof.
  unfold timestamp_le.
  destruct (timestamp a) as [x| | |], (timestamp b) as [y| | |],
    (timestamp c) as [z| | |]; simpl; try done.
  rewrite !bool_decide_eq_true. apply Qcle_trans.
Qed.

Lemma sort_insert_sorted (x : point) (l : list point) :
  numeric x → Forall numeric l →
  StronglySorted timestamp_le l →
  StronglySorted timestamp_le
    (sort_insert (λ a b, (timestamp a - timestamp b)%js) x l).
Proof.
  intros Hx Hl Hs. induction Hs as [|y l Hs IH Hy]; cbn [sort_insert].
  - repeat constructor.
  - apply Forall_cons in Hl as [Hny Hl].
    pose proof (compare_numeric x y Hx Hny) as Hcmp.
    destruct (js_gt _ _).
    + constructor; [by apply IH|].
      rewrite sort_insert_Permutation. by constructor.
    + constructor; [by constructor|]. constructor; [done|].
      eapply Forall_impl; [exact Hy|]. intros z Hz. by eapply timestamp_le_trans.
Qed.

Lemma Array_sort_sorted (l : list point) :
  Forall numeric l →
  StronglySorted timestamp_le (Array_sort (λ a b, (timestamp a - timestamp b)%js) l).
Proof.
  unfold Array_sort. induction 1 as [|x l Hx Hl IH]; simpl; [constructor|].
  apply sort_insert_sorted; [done| |done].
  fold (Array_sort (λ a b, (timestamp a - timestamp b)%js) l).
  by rewrite Array_sort_Permutation.
Qed.

(** C9, as the code behaves: [convertToArray] drops nothing.  Its output
    is a rearrangement of the points of all the entries, whether their keys
    parse or not, and when every key parses to a number the output is
    sorted by ascending timestamp. *)
Theorem convertToArray_keeps_every_entry (priceData : list (string * number)) :
  convertToArray priceData ≡ₚ to_point <$> priceData
  ∧ (Forall (λ kv, well_formed kv.1) priceData →
     StronglySorted timestamp_le (convertToArray priceData)).
Proof.
  split; [apply Array_sort_Permutation|].
  intros Hwf. apply Array_sort_sorted, Forall_fmap.
  eapply Forall_impl; [exact Hwf|]. by intros [key price].
Qed.

(** C9 fails as stated: an entry whose key does not parse is not dropped;
    it is in the output with a [NaN] timestamp. *)
Lemma malformed_entry_is_kept :
  ¬ (∀ (priceData : list (string * number)) (kv : string * number),
       kv ∈ priceData → ¬ well_formed kv.1 →
       to_point kv ∉ convertToArray priceData).
Proof.
  intros Hclaim.
  apply (Hclaim [("not-a-date"%string, num 5)] ("not-a-date"%string, num 5)).
  - left.
  - intros Hwf. by apply Hwf.
  - left.
Qed.

Lemma convertToArray_keeps_every_entry_witness :
  let priceData := [("1700086400000", num 120); ("1700000000000", num 100);
                    ("1700172800000", num 90)]%string in
  convertToArray priceData ≡ₚ to_point <$> priceData
  ∧ StronglySorted timestamp_le (convertToArray priceData).
Proof.
  intros priceData.
  destruct (convertToArray_keeps_every_entry priceData) as [Hperm Hsorted].
  split; [exact Hperm|]. apply Hsorted.
  repeat (apply Forall_cons_2; [by vm_compute|]). apply Forall_nil_2.
Defined.


End NormalizerFacts.

(** * Further properties of the code *)

(** ** Region aggregation *)

Section AggregatorExtras.
Import Aggregator.

(** The dates and the price extremes of the aggregate do not depend on
    the order in which [Object.keys(historyData)] enumerates the regions:
    the dates are sorted on output, and [Math.max] and [Math.min] give the
    same extreme in any order. *)
Theorem region_order_keeps_extremes (hist1 hist2 : list (N * list (N * list entry))) :
  hist1 ≡ₚ hist2 →
  extremes <$> aggregateRegionData hist1 = extremes <$> aggregateRegionData hist2.
Proof.
  intros Hperm. unfold aggregateRegionData.
  by rewrite (accumulators_Permutation _ _ Hperm).
Qed.

Lemma region_order_keeps_extremes_witness :
  extremes <$> aggregateRegionData sample_history
  = extremes <$> aggregateRegionData (reverse sample_history).
Proof.
  apply region_order_keeps_extremes. by vm_compute; apply Permutation_swap.
Defined.

(** A date whose total volume is not positive gets the price 0. *)
Theorem zero_volume_average (hist : list (N * list (N * list entry))) (t : N)
    (out : list entry) (o : entry) :
  aggregateRegionData hist !! t = Some out → o ∈ out →
  (volume o >? num 0)%js = false → average o = num 0.
Proof.
  intros Hout Ho Hvol.
  destruct (aggregated_point hist t out o Hout Ho) as [_ Heq].
  rewrite Heq in Hvol |- *. cbn [finalize average volume] in *. by rewrite Hvol.
Qed.

Lemma zero_volume_average_witness : average (sample_series !!! 2%nat) = num 0.
Proof.
  apply (zero_volume_average sample_history 34 sample_series).
  - vm_compute. reflexivity.
  - apply (list_elem_of_lookup_2 _ 2%nat). vm_compute. reflexivity.
  - vm_compute. reflexivity.
Defined.

Lemma Math_max_NInf (x : number) : Math_max NInf x = x.
Proof. by destruct x. Qed.

Lemma Math_min_PInf (x : number) : Math_min PInf x = x.
Proof. by destruct x. Qed.

Lemma js_add_0_l (x : number) : (num 0 + x)%js = x.
Proof. destruct x; simpl; try done. unfold num. by rewrite Qc_of_Z_0, Qcplus_0_l. Qed.

(** A date that a single point contributes to keeps that point's
    extremes, volume and order count: each starts from the neutral value
    of its update. *)
Theorem single_point_unchanged (hist : list (N * list (N * list entry))) (t : N)
    (out : list entry) (o e : entry) :
  aggregateRegionData hist !! t = Some out → o ∈ out →
  on_date (date o) (points_of t hist) = [e] →
  date o = date e ∧ highest o = highest e ∧ lowest o = lowest e
  ∧ volume o = volume e ∧ order_count o = order_count e.
Proof.
  intros Hout Ho Hone.
  destruct (aggregated_point hist t out o Hout Ho) as [_ Heq].
  rewrite Hone in Heq. simpl in Heq.
  assert (Hdate : date e = date o).
  { assert (Hin : e ∈ on_date (date o) (points_of t hist)) by (rewrite Hone; left).
    by apply list_elem_of_filter in Hin as [? _]. }
  rewrite Heq at 2 3 4 5. unfold finalize, accumulate, fresh.
  cbn [Acc.date Acc.totalVolume Acc.weightedAvgSum Acc.highest Acc.lowest Acc.orderCount
       highest lowest volume order_count].
  by rewrite !js_add_0_l, Math_max_NInf, Math_min_PInf.
Qed.

Lemma single_point_unchanged_witness :
  let o := sample_series !!! 0%nat in
  let e := Entry "2024-01-01" (num 100) (num 110) (num 90) (num 10) (num 3) in
  date o = date e ∧ highest o = highest e ∧ lowest o = lowest e
  ∧ volume o = volume e ∧ order_count o = order_count e.
Proof.
  apply (single_point_unchanged sample_history 34 sample_series).
  - vm_compute. reflexivity.
  - apply (list_elem_of_lookup_2 _ 0%nat). vm_compute. reflexivity.
  - vm_compute. reflexivity.
Defined.

End AggregatorExtras.

Section AggregatorTotals.
Import Aggregator.

Lemma foldl_accumulate_orderCount (es : list entry) (agg : Acc.t) :
  Acc.orderCount (foldl accumulate agg es)
  = foldl js_add (Acc.orderCount agg) (order_count <$> es).
Proof. revert agg. induction es as [|e es IH]; intros agg; [done|]. simpl. by rewrite IH. Qed.

Lemma foldl_accumulate_highest (es : list entry) (agg : Acc.t) :
  Acc.highest (foldl accumulate agg es)
  = foldl Math_max (Acc.highest agg) (highest <$> es).
Proof. revert agg. induction es as [|e es IH]; intros agg; [done|]. simpl. by rewrite IH. Qed.

Lemma foldl_accumulate_lowest (es : list entry) (agg : Acc.t) :
  Acc.lowest (foldl accumulate agg es)
  = foldl Math_min (Acc.lowest agg) (lowest <$> es).
Proof. revert agg. induction es as [|e es IH]; intros agg; [done|]. simpl. by rewrite IH. Qed.

(** The aggregated volume and order count of a date are the sums of the
    contributing volumes and order counts. *)
Theorem aggregated_totals (hist : list (N * list (N * list entry))) (t : N)
    (out : list entry) (o : entry) :
  aggregateRegionData hist !! t = Some out → o ∈ out →
  volume o = Stats.sum (volume <$> on_date (date o) (points_of t hist))
  ∧ order_count o = Stats.sum (order_count <$> on_date (date o) (points_of t hist)).
Proof.
  intros Hout Ho.
  destruct (aggregated_point hist t out o Hout Ho) as [_ Heq].
  split; rewrite Heq at 1; cbn [finalize volume order_count].
  - by rewrite foldl_accumulate_totalVolume.
  - by rewrite foldl_accumulate_orderCount.
Qed.

Lemma js_le_trans (x y z : number) :
  (x <=? y)%js = true → (y <=? z)%js = true → (x <=? z)%js = true.
Proof.
  destruct x as [a| | |], y as [b| | |], z as [c| | |]; simpl; try done.
  rewrite !bool_decide_eq_true. apply Qcle_trans.
Qed.

Lemma js_le_refl (x : number) : x ≠ NaN → (x <=? x)%js = true.
Proof. destruct x; simpl; try done. intros _. by apply bool_decide_eq_true. Qed.

Lemma Math_max_upper (x y : number) :
  Math_max x y ≠ NaN →
  (x <=? Math_max x y)%js = true ∧ (y <=? Math_max x y)%js = true.
Proof.
  destruct x as [a| | |], y as [b| | |]; simpl; try done; try (by split);
    intros _; try case_bool_decide; simpl; rewrite ?bool_decide_eq_true; split;
    try done; qc_order.
Qed.

Lemma Math_min_lower (x y : number) :
  Math_min x y ≠ NaN →
  (Math_min x y <=? x)%js = true ∧ (Math_min x y <=? y)%js = true.
Proof.
  destruct x as [a| | |], y as [b| | |]; simpl; try done; try (by split);
    intros _; try case_bool_decide; simpl; rewrite ?bool_decide_eq_true; split;
    try done; qc_order.
Qed.

Lemma Math_max_NaN_l (y : number) : Math_max NaN y = NaN.
Proof. by destruct y. Qed.
Lemma Math_min_NaN_l (y : number) : Math_min NaN y = NaN.
Proof. by destruct y. Qed.

Lemma foldl_Math_max_NaN (ys : list number) : foldl Math_max NaN ys = NaN.
Proof. induction ys as [|y ys IH]; [done|]. cbn [foldl]. by rewrite Math_max_NaN_l. Qed.
Lemma foldl_Math_min_NaN (ys : list number) : foldl Math_min NaN ys = NaN.
Proof. induction ys as [|y ys IH]; [done|]. cbn [foldl]. by rewrite Math_min_NaN_l. Qed.

Lemma foldl_Math_max_upper (ys : list number) (x : number) :
  foldl Math_max x ys ≠ NaN →
  (x <=? foldl Math_max x ys)%js = true
  ∧ ∀ y, y ∈ ys → (y <=? foldl Math_max x ys)%js = true.
Proof.
  revert x. induction ys as [|y ys IH]; intros x Hnan; cbn [foldl] in *.
  - split; [by apply js_le_refl|]. intros y Hy. by apply elem_of_nil in Hy.
  - destruct (IH _ Hnan) as [Hxy Hys].
    assert (Hm : Math_max x y ≠ NaN).
    { intros HN. rewrite HN, foldl_Math_max_NaN in Hnan. done. }
    destruct (Math_max_upper x y Hm) as [Hx Hy].
    split; [by eapply js_le_trans|].
    intros z Hz. apply elem_of_cons in Hz as [->|Hz]; [by eapply js_le_trans|eauto].
Qed.

Lemma foldl_Math_min_lower (ys : list number) (x : number) :
  foldl Math_min x ys ≠ NaN →
  (foldl Math_min x ys <=? x)%js = true
  ∧ ∀ y, y ∈ ys → (foldl Math_min x ys <=? y)%js = true.
Proof.
  revert x. induction ys as [|y ys IH]; intros x Hnan; cbn [foldl] in *.
  - split; [by apply js_le_refl|]. intros y Hy. by apply elem_of_nil in Hy.
  - destruct (IH _ Hnan) as [Hxy Hys].
    assert (Hm : Math_min x y ≠ NaN).
    { intros HN. rewrite HN, foldl_Math_min_NaN in Hnan. done. }
    destruct (Math_min_lower x y Hm) as [Hx Hy].
    split; [by eapply js_le_trans|].
    intros z Hz. apply elem_of_cons in Hz as [->|Hz]; [by eapply js_le_trans|eauto].
Qed.

(** Unless it is [NaN], the aggregated high of a date is at least every
    contributing high, and the aggregated low at most every contributing
    low. *)
Theorem aggregated_extremes (hist : list (N * list (N * list entry))) (t : N)
    (out : list entry) (o e : entry) :
  aggregateRegionData hist !! t = Some out → o ∈ out →
  e ∈ on_date (date o) (points_of t hist) →
  (highest o ≠ NaN → (highest e <=? highest o)%js = true)
  ∧ (lowest o ≠ NaN → (lowest o <=? lowest e)%js = true).
Proof.
  intros Hout Ho He.
  destruct (aggregated_point hist t out o Hout Ho) as [_ Heq].
  split; intros Hnan; rewrite Heq in Hnan |- *; cbn [finalize highest lowest] in *.
  - rewrite foldl_accumulate_highest in *.
    apply foldl_Math_max_upper; [done|]. by apply list_elem_of_fmap_2.
  - rewrite foldl_accumulate_lowest in *.
    apply foldl_Math_min_lower; [done|]. by apply list_elem_of_fmap_2.
Qed.

End AggregatorTotals.

Section AggregatorEdges.
Import Aggregator.

Lemma aggregated_totals_witness :
  volume sample_point
  = Stats.sum (volume <$> on_date (date sample_point) (points_of 34 sample_history))
  ∧ order_count sample_point
  = Stats.sum (order_count <$> on_date (date sample_point) (points_of 34 sample_history)).
Proof.
  apply (aggregated_totals sample_history 34 sample_series sample_point).
  - vm_compute. reflexivity.
  - apply (list_elem_of_lookup_2 _ 1%nat). vm_compute. reflexivity.
Defined.

Lemma aggregated_extremes_witness :
  let e := Entry "2024-01-02" (num 110) (num 115) (num 100) (num 20) (num 5) in
  (highest e <=? highest sample_point)%js = true
  ∧ (lowest sample_point <=? lowest e)%js = true.
Proof.
  intros e.
  destruct (aggregated_extremes sample_history 34 sample_series sample_point e)
    as [Hhigh Hlow].
  - vm_compute. reflexivity.
  - apply (list_elem_of_lookup_2 _ 1%nat). vm_compute. reflexivity.
  - apply (list_elem_of_lookup_2 _ 0%nat). vm_compute. reflexivity.
  - split; [apply Hhigh|apply Hlow]; by vm_compute.
Defined.

(** The dates of an aggregated series are the own keys of the item's
    accumulator object. *)
Lemma aggregated_date_iff (hist : list (N * list (N * list entry))) (t : N)
    (out : list entry) (d : string) :
  aggregateRegionData hist !! t = Some out →
  d ∈ date <$> out ↔ on_date d (points_of t hist) ≠ [] ∧ inherited d = false.
Proof.
  rewrite aggregateRegionData_lookup. intros Hout.
  apply fmap_Some in Hout as (byDate & Ht & ->).
  rewrite (series_of_dates hist t byDate Ht), sorted_keys_elem_of.
  pose proof (cell_accumulators hist t d) as Hcell.
  unfold cell in Hcell. rewrite Ht in Hcell. simpl in Hcell. rewrite Hcell.
  destruct (on_date d (points_of t hist)) as [|e es]; simpl.
  - split; [by intros [? ?]|by intros [? _]].
  - destruct (inherited d); split; try done; try (by intros [? ?]); eauto.
Qed.

(** A point whose date is the name of a property that objects inherit
    from [Object.prototype] is left out of the aggregate. *)
Theorem inherited_date_is_dropped (hist : list (N * list (N * list entry))) (t : N)
    (out : list entry) (d : string) :
  aggregateRegionData hist !! t = Some out →
  inherited d = true → d ∉ date <$> out.
Proof.
  intros Hout Hinh Hd. apply (aggregated_date_iff hist t out d Hout) in Hd as [_ Hd].
  congruence.
Qed.

Lemma inherited_date_is_dropped_witness :
  "constructor"%string ∉ date <$> default [] (aggregateRegionData odd_history !! 34%N).
Proof.
  apply (inherited_date_is_dropped odd_history 34).
  - vm_compute. reflexivity.
  - reflexivity.
Defined.

Lemma aggregated_dates_NoDup (hist : list (N * list (N * list entry))) (t : N)
    (out : list entry) :
  aggregateRegionData hist !! t = Some out →
  StronglySorted String_le (date <$> out) ∧ NoDup (date <$> out).
Proof.
  rewrite aggregateRegionData_lookup. intros Hout.
  apply fmap_Some in Hout as (byDate & Ht & ->).
  rewrite (series_of_dates hist t byDate Ht). split; [|apply sorted_keys_NoDup].
  unfold sorted_keys. apply (StronglySorted_merge_sort _).
Qed.

(** Feeding an aggregated series back as the single series of a region
    gives a series with the same dates. *)
Theorem reaggregation_keeps_dates (hist : list (N * list (N * list entry)))
    (t regionId : N) (out out' : list entry) :
  aggregateRegionData hist !! t = Some out →
  aggregateRegionData [(regionId, [(t, out)])] !! t = Some out' →
  date <$> out' = date <$> out.
Proof.
  intros Hout Hout'.
  destruct (aggregated_dates_NoDup _ _ _ Hout) as [Hs Hnd].
  destruct (aggregated_dates_NoDup _ _ _ Hout') as [Hs' Hnd'].
  apply (StronglySorted_unique String_le); [done..|].
  apply NoDup_Permutation; [done..|]. intros d.
  rewrite (aggregated_date_iff _ _ _ d Hout').
  assert (Hpts : points_of t [(regionId, [(t, out)])] = out).
  { unfold points_of, points_of_region. simpl. rewrite decide_True by done.
    by rewrite !app_nil_r. }
  rewrite Hpts, on_date_nonempty. split; [by intros [? _]|].
  intros Hd. split; [done|].
  by apply (aggregated_date_iff _ _ _ d Hout) in Hd as [_ ?].
Qed.

Lemma reaggregation_keeps_dates_witness :
  date <$> default [] (aggregateRegionData [(1%N, [(34%N, sample_series)])] !! 34%N)
  = date <$> sample_series.
Proof.
  apply (reaggregation_keeps_dates sample_history 34 1).
  - vm_compute. reflexivity.
  - vm_compute. reflexivity.
Defined.

End AggregatorEdges.

(** ** Scoring *)

Section ScoringExtras.
Import Scoring.

(** Whatever the inputs, infinite ones included, the score is [NaN] or a
    number of the interval [0, 100]. *)
Theorem calculateInvestmentScore_NaN_or_in_range (pc v m : number) :
  calculateInvestmentScore pc v m = NaN
  ∨ ∃ s, calculateInvestmentScore pc v m = Fin s ∧ 0 ≤ s ≤ Qc_of_Z 100.
Proof.
  unfold calculateInvestmentScore.
  destruct (score_before_clamp pc v m) as [x| | |].
  - right. unfold num. rewrite Math_min_fin, Math_max_fin, Qc_of_Z_0.
    eexists. split; [done|]. apply clamp_bounds. by vm_compute.
  - right. exists (Qc_of_Z 100). split; [by vm_compute|]. by vm_compute.
  - right. exists (Qc_of_Z 0). split; [by vm_compute|]. by vm_compute.
  - by left.
Qed.

Lemma js_add_NaN_l (x : number) : (NaN + x)%js = NaN.
Proof. by destruct x. Qed.

(** A [NaN] volatility or momentum makes the score [NaN]; a [NaN] price
    change is scored like a price change of 0. *)
Theorem calculateInvestmentScore_NaN :
  (∀ pc m, calculateInvestmentScore pc NaN m = NaN)
  ∧ (∀ pc v, calculateInvestmentScore pc v NaN = NaN)
  ∧ (∀ v m, calculateInvestmentScore NaN v m = calculateInvestmentScore (num 0) v m).
Proof.
  split; [|split].
  - intros pc m. unfold calculateInvestmentScore, score_before_clamp.
    change (NaN >=? num 20)%js with false. change (NaN >? num 15)%js with false.
    rewrite andb_false_r. cbv iota.
    change (num 50 + NaN / num 20 * num 30)%js with NaN. rewrite js_add_NaN_l.
    by destruct (pc >=? num 40)%js, (pc >? num 0)%js; rewrite ?js_add_NaN_l.
  - intros pc v. unfold calculateInvestmentScore, score_before_clamp.
    change (NaN >? num 10)%js with false. cbv iota. cbn [andb].
    change (Math_min (NaN * num 3) (num 30)) with NaN.
    assert (Hn : ∀ x, (x + NaN)%js = NaN) by (by intros []).
    rewrite Hn.
    by destruct (pc >=? num 40)%js, (pc >? num 0)%js; rewrite ?js_add_NaN_l.
  - intros v m. unfold calculateInvestmentScore, score_before_clamp.
    change (NaN >=? num 40)%js with false. change (NaN >? num 0)%js with false.
    change (NaN >? num 30)%js with false.
    assert (H40 : (num 0 >=? num 40)%js = false) by (by vm_compute).
    assert (H0 : (num 0 >? num 0)%js = false) by (by vm_compute).
    assert (H30 : (num 0 >? num 30)%js = false) by (by vm_compute).
    by rewrite H40, H0, H30.
Qed.

End ScoringExtras.

(** Order goals with sums, products and quotients by literals, through
    the underlying fractions. *)
Ltac qc_arith :=
  unfold Qcle, Qclt, Qcdiv, Qcmult, Qcplus, Qcinv, Q2Qc, Qc_of_Z in *;
  cbn [this] in *; rewrite ?Qred_correct in *; cbn [this] in *;
  rewrite ?Qred_correct in *; cbn [this] in *; unfold inject_Z in *;
  cbn [Qinv Qnum Qden] in *;
  lra.

Section ScoringMonotone.
Import Scoring.

Lemma volatility_contribution_mono (v v' : Qc) :
  v ≤ v' → volatility_contribution v ≤ volatility_contribution v'.
Proof.
  intros Hv. unfold volatility_contribution.
  repeat case_decide; qc_arith.
Qed.

Lemma momentum_contribution_mono (m m' : Qc) :
  m ≤ m' → momentum_contribution m ≤ momentum_contribution m'.
Proof.
  intros Hm. unfold momentum_contribution, Qc_min.
  repeat case_decide; qc_arith.
Qed.

Lemma price_change_contribution_mono (pc pc' : Qc) :
  pc ≤ pc' → price_change_contribution pc ≤ price_change_contribution pc'.
Proof.
  intros Hpc. unfold price_change_contribution.
  repeat case_decide; qc_arith.
Qed.

Lemma breakout_bonus_mono (pc v m pc' v' m' : Qc) :
  pc ≤ pc' → v ≤ v' → m ≤ m' →
  breakout_bonus pc v m ≤ breakout_bonus pc' v' m'.
Proof.
  intros Hpc Hv Hm. unfold breakout_bonus.
  repeat case_decide; destruct_and?; qc_arith.
Qed.

Lemma clamp_mono (x y lo hi : Qc) : x ≤ y → clamp x lo hi ≤ clamp y lo hi.
Proof.
  intros Hxy. unfold clamp, Qc_max, Qc_min. repeat case_decide; qc_arith.
Qed.

Lemma reference_score_mono (pc v m pc' v' m' : Qc) :
  pc ≤ pc' → v ≤ v' → m ≤ m' →
  reference_score pc v m ≤ reference_score pc' v' m'.
Proof.
  intros Hpc Hv Hm. unfold reference_score, reference_sum. apply clamp_mono.
  repeat apply Qcplus_le_compat; try apply Qcle_refl.
  - by apply volatility_contribution_mono.
  - by apply momentum_contribution_mono.
  - by apply price_change_contribution_mono.
  - by apply breakout_bonus_mono.
Qed.

(** Raising the volatility, the momentum or the price change never lowers
    the score. *)
Theorem calculateInvestmentScore_monotone (pc v m pc' v' m' : Qc) :
  pc ≤ pc' → v ≤ v' → m ≤ m' →
  (calculateInvestmentScore (Fin pc) (Fin v) (Fin m)
   <=? calculateInvestmentScore (Fin pc') (Fin v') (Fin m'))%js = true.
Proof.
  intros Hpc Hv Hm. rewrite !calculateInvestmentScore_fin.
  by apply js_le_fin, reference_score_mono.
Qed.

Lemma calculateInvestmentScore_monotone_witness :
  (calculateInvestmentScore (num 10) (num 5) (num 2)
   <=? calculateInvestmentScore (num 35) (num 18) (num 11))%js = true.
Proof.
  apply calculateInvestmentScore_monotone; by vm_compute.
Defined.

End ScoringMonotone.

(** ** Statistics *)

Section StatsExtras.
Import Stats.

(** On every non-empty history the 7-point and 30-point deltas are taken
    against the points 6 and 29 places before the last one. *)
Theorem short_horizon_reference_points (history : list entry) :
  history ≠ [] →
  priceChange7d history = delta_points_earlier 6 history
  ∧ priceChange30d history = delta_points_earlier 29 history.
Proof.
  intros Hne. split; by apply shortTermChange_offset.
Qed.

Lemma short_horizon_reference_points_witness :
  priceChange7d eight_points = delta_points_earlier 6 eight_points
  ∧ priceChange30d eight_points = delta_points_earlier 29 eight_points.
Proof. by apply short_horizon_reference_points. Defined.

Lemma finite_prices_lookup (history : list entry) (i : nat) :
  finite_prices history → (i < length history)%nat →
  ∃ a, average (history !!! i) = Fin a.
Proof.
  intros Hfin Hi. destruct (lookup_lt_is_Some_2 history i Hi) as [e He].
  rewrite (list_lookup_total_correct _ _ _ He).
  eapply Forall_lookup_1 in Hfin; [|exact He]. simpl in Hfin.
  destruct (average e); try done. eauto.
Qed.

Lemma shortTermChange_not_NaN (horizon : nat) (history : list entry) :
  (1 ≤ horizon)%nat → finite_prices history →
  shortTermChange horizon history ≠ NaN.
Proof.
  intros Hk Hfin. unfold shortTermChange. case_decide as Hlen; [|done].
  destruct (finite_prices_lookup history (length history - 1) Hfin) as [c Hc]; [lia|].
  destruct (finite_prices_lookup history (length history - horizon) Hfin) as [p Hp]; [lia|].
  rewrite Hc, Hp. destruct (Fin p >? num 0)%js eqn:Hpos; [|done].
  unfold js_gt, num in Hpos. apply js_lt_fin in Hpos. rewrite Qc_of_Z_0 in Hpos.
  unfold js_sub. cbn [js_neg js_add]. rewrite js_div_fin; [done|].
  intros ->. by apply (irreflexivity Qclt 0).
Qed.

(** The 7-point and 30-point deltas are never NaN on a non-empty series
    of finite prices: the guard [priceAgo > 0] keeps a zero or negative
    price out of the divisor. *)
Theorem short_horizon_deltas_not_NaN (history : list entry) :
  history ≠ [] → finite_prices history →
  priceChange7d history ≠ NaN ∧ priceChange30d history ≠ NaN.
Proof.
  intros _ Hfin. split; apply shortTermChange_not_NaN; (lia || done).
Qed.

Lemma short_horizon_deltas_not_NaN_witness :
  priceChange7d eight_points ≠ NaN ∧ priceChange30d eight_points ≠ NaN.
Proof.
  apply short_horizon_deltas_not_NaN; [done|].
  repeat (apply Forall_cons_2; [reflexivity|]). apply Forall_nil_2.
Defined.

(** On a series of at least two finite prices whose first price is 0 the
    overall price change is not a finite number: the division by the
    first price is unguarded. *)
Theorem calculatePriceChange_zero_first_price (history : list entry) :
  finite_prices history → (2 ≤ length history)%nat →
  average (history !!! 0%nat) = num 0 →
  is_finite (calculatePriceChange history) = false.
Proof.
  intros Hfin Hlen Hzero. unfold calculatePriceChange.
  rewrite decide_False by lia.
  destruct (finite_prices_lookup history (length history - 1) Hfin) as [l Hl]; [lia|].
  rewrite Hzero, Hl. unfold js_sub, num. cbn [js_neg js_add js_div].
  rewrite decide_True by apply Qc_of_Z_0.
  unfold signed_inf. by destruct (_ ?= _).
Qed.

Lemma calculatePriceChange_zero_first_price_witness :
  is_finite (calculatePriceChange [priced "2024-01-01" 0; priced "2024-01-02" 5]) = false.
Proof.
  apply calculatePriceChange_zero_first_price.
  - repeat (apply Forall_cons_2; [reflexivity|]). apply Forall_nil_2.
  - simpl. lia.
  - reflexivity.
Defined.

End StatsExtras.

(** ** Incremental synchronisation *)

Section SyncExtras.
Import Sync.
Variable fetch : N → N → N → conditional → fetch_result.

Lemma refresh_requestCount (r t : N) (st : state) :
  requestCount (refresh fetch r t st) = N.succ (requestCount st).
Proof.
  unfold refresh. destruct (fetch _ _ _ _) as [resp|]; [|done].
  case_bool_decide; [done|]. destruct (ok resp); [|by case_bool_decide].
  by destruct (body resp).
Qed.

(** Each refresh attempt is one counted request. *)
Lemma item_loop_attempts_length (r : N) (items : list (string * N)) (st : state) :
  requestCount (item_loop fetch r items st)
  = (requestCount st + N.of_nat (length (item_loop_attempts fetch r items st)))%N.
Proof.
  revert st. induction items as [|[name t] items IH]; intros st; simpl.
  - lia.
  - case_decide; simpl; [lia|]. rewrite IH, refresh_requestCount. lia.
Qed.

Lemma region_loop_attempts_length (regions items : list (string * N)) (st : state) :
  requestCount (region_loop fetch regions items st)
  = (requestCount st
     + N.of_nat (length (region_loop_attempts fetch regions items st)))%N.
Proof.
  revert st. induction regions as [|[name r] regions IH]; intros st; simpl.
  - lia.
  - case_decide; simpl; [lia|].
    rewrite IH, length_app, item_loop_attempts_length. simpl. lia.
Qed.

Lemma attempts_counted (regions items : list (string * N))
    (history : gmap N (gmap N (list entry))) (etags : gmap N (gmap N cacheToken)) :
  requestCount (populate fetch regions items history etags)
  = N.of_nat (length (attempts fetch regions items history etags)).
Proof. unfold populate, attempts. by rewrite region_loop_attempts_length. Qed.

Lemma item_loop_requestCount (r : N) (items : list (string * N)) (st : state) :
  (requestCount st ≤ NUMBER_OF_ITEMS_TO_PROCESS)%N →
  requestCount (item_loop fetch r items st)
  = N.min NUMBER_OF_ITEMS_TO_PROCESS (requestCount st + N.of_nat (length items)).
Proof.
  revert st. induction items as [|[name t] items IH]; intros st Hle; simpl.
  - lia.
  - case_decide as Hlim; [lia|].
    rewrite IH; rewrite refresh_requestCount; lia.
Qed.

Lemma region_loop_requestCount (regions items : list (string * N)) (st : state) :
  (requestCount st ≤ NUMBER_OF_ITEMS_TO_PROCESS)%N →
  requestCount (region_loop fetch regions items st)
  = N.min NUMBER_OF_ITEMS_TO_PROCESS
      (requestCount st + N.of_nat (length regions * length items)).
Proof.
  revert st. induction regions as [|[name r] regions IH]; intros st Hle; simpl.
  - lia.
  - case_decide as Hlim; [lia|].
    rewrite IH; rewrite item_loop_requestCount; simpl; lia.
Qed.

(** A run issues one request per (region, item) pair of the catalogue, in
    order, and stops at the processing limit. *)
Theorem populate_requestCount (regions items : list (string * N))
    (history : gmap N (gmap N (list entry))) (etags : gmap N (gmap N cacheToken)) :
  requestCount (populate fetch regions items history etags)
  = N.min NUMBER_OF_ITEMS_TO_PROCESS (N.of_nat (length regions * length items)).
Proof.
  unfold populate. rewrite region_loop_requestCount; simpl; [done|].
  unfold NUMBER_OF_ITEMS_TO_PROCESS. lia.
Qed.

Lemma refresh_counted (r t : N) (st : state) :
  counted st → counted (refresh fetch r t st).
Proof.
  unfold counted, refresh. intros Hc.
  destruct (fetch _ _ _ _) as [resp|]; simpl; [|lia].
  case_bool_decide; simpl; [lia|]. destruct (ok resp); [|case_bool_decide; simpl; lia].
  destruct (body resp); simpl; lia.
Qed.

Lemma item_loop_counted (r : N) (items : list (string * N)) (st : state) :
  counted st → counted (item_loop fetch r items st).
Proof.
  revert st. induction items as [|[name t] items IH]; intros st Hc; simpl; [done|].
  case_decide; [done|]. by apply IH, refresh_counted.
Qed.

Lemma region_loop_counted (regions items : list (string * N)) (st : state) :
  counted st → counted (region_loop fetch regions items st).
Proof.
  revert st. induction regions as [|[name r] regions IH]; intros st Hc; simpl; [done|].
  case_decide; [done|]. by apply IH, item_loop_counted.
Qed.

(** Every counted outcome belongs to a request: after a run the fetched,
    unchanged and failed attempts do not outnumber the requests made. *)
Theorem populate_counters (regions items : list (string * N))
    (history : gmap N (gmap N (list entry))) (etags : gmap N (gmap N cacheToken)) :
  let st := populate fetch regions items history etags in
  (fetched st + skipped st + errors st ≤ requestCount st)%N.
Proof. apply region_loop_counted. unfold counted. simpl. lia. Qed.

(** A successful refresh stores the body it received; the token is
    replaced when the response carries a validator and is otherwise left
    as it was. *)
Theorem refresh_replaces (r t : N) (st : state) (resp : response)
    (history : list entry) :
  fetch (N.succ (requestCount st)) r t (headers_for st r t) = Resolved resp →
  status resp ≠ 304%Z → ok resp = true → body resp = Some history →
  let st' := refresh fetch r t st in
  stored_series st' r t = Some history
  ∧ stored_token st' r t
    = match truthy_string (header_etag resp), truthy_string (header_last_modified resp) with
      | None, None => stored_token st r t
      | tag, modified => Some (CacheToken tag modified)
      end.
Proof.
  intros Hfetch Hstatus Hok Hbody. unfold refresh.
  change (Conditional _ _) with (headers_for st r t).
  change (requestCount (count_request st)) with (N.succ (requestCount st)).
  rewrite Hfetch. rewrite bool_decide_eq_false_2 by done. rewrite Hok, Hbody.
  unfold replace, stored_series, stored_token. simpl.
  split; [apply store_lookup_eq|].
  destruct (truthy_string (header_etag resp)) as [tag|],
    (truthy_string (header_last_modified resp)) as [modified|].
  - rewrite bool_decide_eq_true_2 by (left; eauto). apply store_lookup_eq.
  - rewrite bool_decide_eq_true_2 by (left; eauto). apply store_lookup_eq.
  - rewrite bool_decide_eq_true_2 by (right; eauto). apply store_lookup_eq.
  - rewrite bool_decide_eq_false_2; [done|]. by intros [[? ?]|[? ?]].
Qed.



Lemma item_loop_other_region (r t r' : N) (items : list (string * N)) (st : state) :
  r' ≠ r → kept st (item_loop fetch r' items st) r t.
Proof.
  intros Hne. revert st. induction items as [|[name t'] items IH]; intros st; simpl.
  - apply kept_refl.
  - case_decide; [apply kept_refl|].
    eapply kept_trans; [apply (refresh_other fetch r t r' t' st); congruence|apply IH].
Qed.

Lemma item_loop_other_item (r t r' : N) (items : list (string * N)) (st : state) :
  t ∉ items.*2 → kept st (item_loop fetch r' items st) r t.
Proof.
  revert st. induction items as [|[name t'] items IH]; intros st Hnin; simpl.
  - apply kept_refl.
  - case_decide; [apply kept_refl|].
    simpl in Hnin. apply not_elem_of_cons in Hnin as [Hne Hnin].
    eapply kept_trans; [apply (refresh_other fetch r t r' t' st); congruence|by apply IH].
Qed.

(** A run only touches the pairs of its catalogue: a pair whose region or
    whose item is not listed keeps its stored series and token. *)
Theorem unlisted_pair_is_kept (regions items : list (string * N))
    (history : gmap N (gmap N (list entry))) (etags : gmap N (gmap N cacheToken))
    (r t : N) :
  r ∉ regions.*2 ∨ t ∉ items.*2 →
  kept (State history etags 0 0 0 0) (populate fetch regions items history etags) r t.
Proof.
  intros Hunlisted. unfold populate. generalize (State history etags 0 0 0 0).
  induction regions as [|[name r'] regions IH]; intros st; simpl.
  - apply kept_refl.
  - case_decide; [apply kept_refl|].
    set (st1 := State (init_region r' (historyData st)) (init_region r' (etagData st))
                  (fetched st) (skipped st) (errors st) (requestCount st)).
    apply kept_trans with st1.
    { split; unfold stored_series, stored_token; simpl; apply init_region_lookup. }
    apply kept_trans with (item_loop fetch r' items st1).
    + destruct Hunlisted as [Hr|Ht].
      * apply item_loop_other_region. simpl in Hr.
        apply not_elem_of_cons in Hr as [Hne _]. congruence.
      * by apply item_loop_other_item.
    + apply IH. destruct Hunlisted as [Hr|Ht]; [left|by right].
      simpl in Hr. by apply not_elem_of_cons in Hr as [_ ?].
Qed.

End SyncExtras.

Section SyncExtrasWitnesses.
Import Sync.

Lemma refresh_replaces_witness :
  let st := State sample_stored sample_tokens 0 0 0 0 in
  let fetch := fetch_fresh [Stats.priced "2024-01-02" 7] (Some "W/new"%string) None in
  let st' := refresh fetch 10000002 34 st in
  stored_series st' 10000002 34 = Some [Stats.priced "2024-01-02" 7]
  ∧ stored_token st' 10000002 34 = Some (CacheToken (Some "W/new"%string) None).
Proof.
  intros st fetch.
  apply (refresh_replaces fetch 10000002 34 st
           (Response 200 (Some [Stats.priced "2024-01-02" 7]) (Some "W/new"%string) None)).
  - reflexivity.
  - by vm_compute.
  - reflexivity.
  - reflexivity.
Defined.


Lemma unlisted_pair_is_kept_witness :
  kept (State sample_stored sample_tokens 0 0 0 0)
       (populate (fetch_fresh [] None None) sample_regions [("Pyerite"%string, 35%N)]
          sample_stored sample_tokens)
       10000002 34.
Proof.
  apply (unlisted_pair_is_kept (fetch_fresh [] None None)).
  right. by vm_compute; apply not_elem_of_cons; split; [|apply not_elem_of_nil].
Defined.

End SyncExtrasWitnesses.

(** ** Ranked shortlists *)

Section RankingFacts.
Import Normalizer Ranking.

(** [arr.sort(compareFn)] orders the array for any relation that the
    comparator decides and that is transitive. *)
Lemma Array_sort_sorted_for {A} (compareFn : A → A → number) (R : relation A)
    (P : A → Prop) (l : list A) :
  (∀ a b, P a → P b → if (compareFn a b >? num 0)%js then R b a else R a b) →
  (∀ a b c, R a b → R b c → R a c) →
  Forall P l → StronglySorted R (Array_sort compareFn l).
Proof.
  intros Hcmp Htrans. unfold Array_sort.
  induction 1 as [|x l Hx Hl IH]; simpl; [constructor|].
  assert (HP : Forall P (foldr (sort_insert compareFn) [] l)).
  { fold (Array_sort compareFn l). by rewrite Array_sort_Permutation. }
  revert IH HP. generalize (foldr (sort_insert compareFn) [] l). clear l Hl.
  intros l Hs. induction Hs as [|y l Hs IH Hy]; intros HP; cbn [sort_insert].
  - repeat constructor.
  - apply Forall_cons in HP as [HPy HP]. specialize (Hcmp x y Hx HPy).
    destruct (js_gt _ _).
    + constructor; [by apply IH|].
      rewrite sort_insert_Permutation. by constructor.
    + constructor; [by constructor|]. constructor; [done|].
      eapply Forall_impl; [exact Hy|]. intros z Hz. by eapply Htrans.
Qed.

Lemma by_score_descending_decides (a b : analysis) :
  investmentScore a ≠ NaN → investmentScore b ≠ NaN →
  if (by_score_descending a b >? num 0)%js then score_ge b a else score_ge a b.
Proof.
  unfold by_score_descending, score_ge, js_gt, js_sub, num.
  destruct (investmentScore a) as [x| | |], (investmentScore b) as [y| | |];
    try done; simpl; intros _ _.
  unfold Qcminus.
  case_bool_decide as Hlt; apply bool_decide_eq_true; rewrite Qc_of_Z_0 in Hlt.
  - apply Qclt_le_weak. by apply Qclt_minus_iff in Hlt.
  - apply Qcle_ngt. intros Hyx. apply Hlt. by apply Qclt_minus_iff in Hyx.
Qed.

Lemma score_ge_trans (a b c : analysis) : score_ge a b → score_ge b c → score_ge a c.
Proof. unfold score_ge. intros Hab Hbc. by eapply js_le_trans. Qed.

(** Every shortlisted item is an analysed item of the segment, and the
    shortlist holds as many of them as the cap allows. *)
Theorem shortlist_sound (segment : analysis → bool) (n : nat) (results : list analysis) :
  (∀ r, r ∈ shortlist segment n results → r ∈ results ∧ segment r = true)
  ∧ length (shortlist segment n results)
    = min n (length (filter (λ r, segment r = true) results)).
Proof.
  unfold shortlist. split.
  - intros r Hr. apply subseteq_take in Hr.
    rewrite Array_sort_Permutation in Hr. by apply list_elem_of_filter in Hr as [? ?].
  - by rewrite length_take, Array_sort_Permutation.
Qed.

(** When the scores of the segment are numbers, the shortlist is in
    non-increasing score order and no candidate left out of it scores
    higher than a shortlisted one. *)
Theorem shortlist_ranked (segment : analysis → bool) (n : nat) (results : list analysis) :
  (∀ r, r ∈ results → segment r = true → investmentScore r ≠ NaN) →
  StronglySorted score_ge (shortlist segment n results)
  ∧ ∀ x y, x ∈ shortlist segment n results →
           y ∈ results → segment y = true → y ∉ shortlist segment n results →
           score_ge x y.
Proof.
  intros Hnum. unfold shortlist.
  set (sorted := Array_sort by_score_descending (filter (λ r, segment r = true) results)).
  assert (Hs : StronglySorted score_ge sorted).
  { apply (Array_sort_sorted_for _ _ (λ r, investmentScore r ≠ NaN)).
    - apply by_score_descending_decides.
    - apply score_ge_trans.
    - apply Forall_forall. intros r Hr. apply list_elem_of_filter in Hr as [? ?]. eauto. }
  rewrite <-(take_drop n sorted) in Hs. split.
  - by apply StronglySorted_app_1_l in Hs.
  - intros x y Hx Hy Hseg Hout.
    apply (StronglySorted_app_1_elem_of _ _ _ _ _ Hs); [done|].
    assert (Hin : y ∈ sorted).
    { unfold sorted. rewrite Array_sort_Permutation. by apply list_elem_of_filter. }
    rewrite <-(take_drop n sorted) in Hin. apply elem_of_app in Hin as [?|?]; done.
Qed.

Lemma shortlist_ranked_witness :
  StronglySorted score_ge (highRisk sample_results)
  ∧ ∀ x y, x ∈ highRisk sample_results →
           y ∈ sample_results → bool_decide (riskLevel y = high) = true →
           y ∉ highRisk sample_results → score_ge x y.
Proof.
  apply (shortlist_ranked (λ r, bool_decide (riskLevel r = high)) 5 sample_results).
  intros r Hr _. revert r Hr. apply Forall_forall.
  repeat (apply Forall_cons_2; [done|]). apply Forall_nil_2.
Defined.

Lemma sort_insert_stable {A} (compareFn : A → A → number) (Q : A → Prop)
    `{!∀ x, Decision (Q x)} (x : A) (l : list A) :
  (∀ y, (compareFn x y >? num 0)%js = true → Q x → Q y → False) →
  filter Q (sort_insert compareFn x l) = filter Q (x :: l).
Proof.
  intros Hcmp. induction l as [|y l IH]; cbn [sort_insert]; [done|].
  destruct (js_gt (compareFn x y) (num 0)) eqn:Hgt; [|done].
  rewrite filter_cons, IH, !filter_cons.
  destruct (decide (Q y)), (decide (Q x)); try done.
  exfalso. by eapply Hcmp.
Qed.

Lemma by_score_descending_positive (a b : analysis) :
  (by_score_descending a b >? num 0)%js = true → investmentScore a ≠ investmentScore b.
Proof.
  unfold by_score_descending, js_gt, js_sub, num. intros Hgt Heq. rewrite Heq in Hgt.
  destruct (investmentScore b) as [y| | |]; simpl in Hgt; try done.
  apply bool_decide_eq_true in Hgt. rewrite Qc_of_Z_0, Qcplus_opp_r in Hgt.
  by apply (irreflexivity Qclt 0).
Qed.

(** The sort is stable: when the scores of the segment are finite numbers,
    the candidates that share a score appear in the shortlist's ranking in
    their input order. *)
Theorem shortlist_stable (segment : analysis → bool) (n : nat) (results : list analysis) :
  (∀ r, r ∈ results → segment r = true → is_finite (investmentScore r) = true) →
  ∃ ranking,
    shortlist segment n results = take n ranking
    ∧ ranking ≡ₚ filter (λ r, segment r = true) results
    ∧ StronglySorted score_ge ranking
    ∧ ∀ s, filter (λ r, investmentScore r = s) ranking
           = filter (λ r, investmentScore r = s) (filter (λ r, segment r = true) results).
Proof.
  intros Hfin. eexists. split; [reflexivity|].
  split; [apply Array_sort_Permutation|]. split.
  { apply (Array_sort_sorted_for _ _ (λ r, investmentScore r ≠ NaN)).
    - apply by_score_descending_decides.
    - apply score_ge_trans.
    - apply Forall_forall. intros r Hr. apply list_elem_of_filter in Hr as [Hseg Hr].
      specialize (Hfin r Hr Hseg). by destruct (investmentScore r). }
  intros s.
  generalize (filter (λ r, segment r = true) results). intros l.
  unfold Array_sort. induction l as [|x l IH]; [done|]. cbn [foldr].
  rewrite sort_insert_stable, !filter_cons, IH; [done|].
  intros y Hgt Hx Hy. apply by_score_descending_positive in Hgt. congruence.
Qed.

Lemma shortlist_stable_witness :
  ∃ ranking,
    highRisk sample_results = take 5 ranking
    ∧ ranking ≡ₚ filter (λ r, bool_decide (riskLevel r = high) = true) sample_results
    ∧ StronglySorted score_ge ranking
    ∧ ∀ s, filter (λ r, investmentScore r = s) ranking
           = filter (λ r, investmentScore r = s)
               (filter (λ r, bool_decide (riskLevel r = high) = true) sample_results).
Proof.
  apply (shortlist_stable (λ r, bool_decide (riskLevel r = high)) 5 sample_results).
  intros r Hr _. revert r Hr. apply Forall_forall.
  repeat (apply Forall_cons_2; [reflexivity|]). apply Forall_nil_2.
Defined.

(** The example of the specification: two items of score 80 followed by
    one of 90 are listed as 90, then the two 80s in their input order. *)
Example highRisk_sample :
  name <$> highRisk sample_results = ["Mexallon"; "Tritanium"; "Pyerite"]%string.
Proof. vm_compute. reflexivity. Qed.

End RankingFacts.

(** ** Report helpers *)

Section ReportFacts.
Import Report.

Lemma string_app_nil (s : string) : EmptyString +:+ s = s.
Proof. reflexivity. Qed.

Lemma string_app_cons (c : ascii) (s1 s2 : string) :
  String c s1 +:+ s2 = String c (s1 +:+ s2).
Proof. reflexivity. Qed.

Lemma string_app_assoc (s1 s2 s3 : string) : (s1 +:+ s2) +:+ s3 = s1 +:+ (s2 +:+ s3).
Proof.
  induction s1 as [|c s1 IH]; [done|]. rewrite !string_app_cons. by rewrite IH.
Qed.

Lemma replace_all_app (c : ascii) (r s1 s2 : string) :
  replace_all c r (s1 +:+ s2) = replace_all c r s1 +:+ replace_all c r s2.
Proof.
  induction s1 as [|x s1 IH]; [done|].
  rewrite string_app_cons. cbn [replace_all].
  case_decide; rewrite IH; [by rewrite string_app_assoc|done].
Qed.

Lemma escape_each_app (s1 s2 : string) :
  escape_each (s1 +:+ s2) = escape_each s1 +:+ escape_each s2.
Proof.
  induction s1 as [|x s1 IH]; [done|].
  rewrite string_app_cons. cbn [escape_each]. by rewrite IH, string_app_assoc.
Qed.

(** The five successive replacements amount to one pass that replaces each
    character by its entity. *)
Lemma escapeHtml_escape_each (text : string) : escapeHtml text = escape_each text.
Proof.
  unfold escapeHtml. induction text as [|c text IH]; [done|].
  cbn [replace_all escape_each]. unfold escape_char.
  destruct (decide (c = "&"%char)) as [->|Hamp].
  { rewrite !replace_all_app, IH. done. }
  cbn [replace_all]. destruct (decide (c = "<"%char)) as [->|Hlt].
  { rewrite !replace_all_app, IH. done. }
  cbn [replace_all]. destruct (decide (c = ">"%char)) as [->|Hgt].
  { rewrite !replace_all_app, IH. done. }
  cbn [replace_all]. destruct (decide (c = quote)) as [->|Hq].
  { rewrite !replace_all_app, IH. done. }
  cbn [replace_all]. destruct (decide (c = apostrophe)) as [->|Ha].
  { rewrite IH. done. }
  by rewrite IH.
Qed.

Lemma occurs_app (c : ascii) (s1 s2 : string) :
  occurs c (s1 +:+ s2) = occurs c s1 || occurs c s2.
Proof.
  induction s1 as [|x s1 IH]; [done|].
  rewrite string_app_cons. cbn [occurs]. by rewrite IH, orb_assoc.
Qed.

(** The escaped text contains no angle bracket and no quote character. *)
Theorem escapeHtml_safe (text : string) :
  occurs "<" (escapeHtml text) = false
  ∧ occurs ">" (escapeHtml text) = false
  ∧ occurs quote (escapeHtml text) = false
  ∧ occurs apostrophe (escapeHtml text) = false.
Proof.
  rewrite escapeHtml_escape_each.
  induction text as [|c text (IH1 & IH2 & IH3 & IH4)]; [done|].
  cbn [escape_each]. rewrite !occurs_app, IH1, IH2, IH3, IH4, !orb_false_r.
  unfold escape_char. repeat case_decide; try done.
  cbn [occurs]. rewrite !orb_false_r.
  by repeat split; apply bool_decide_eq_false.
Qed.

(** Escaping is done piece by piece. *)
Theorem escapeHtml_app (s1 s2 : string) :
  escapeHtml (s1 +:+ s2) = escapeHtml s1 +:+ escapeHtml s2.
Proof. rewrite !escapeHtml_escape_each. apply escape_each_app. Qed.

(** Escaping loses nothing: two texts with the same escaped form are the
    same text. *)
Theorem escapeHtml_inj (s1 s2 : string) : escapeHtml s1 = escapeHtml s2 → s1 = s2.
Proof.
  rewrite !escapeHtml_escape_each. revert s2.
  induction s1 as [|c1 s1 IH]; intros [|c2 s2] H; cbn [escape_each] in H.
  - done.
  - exfalso. unfold escape_char in H.
    repeat case_decide; cbv [String.append] in H; discriminate.
  - exfalso. unfold escape_char in H.
    repeat case_decide; cbv [String.append] in H; discriminate.
  - unfold escape_char in H.
    repeat case_decide; subst; cbv [String.append] in H; try discriminate;
      injection H; intros; subst; try congruence; f_equal; eauto.
Qed.

Lemma js_ge_mono (v w c : number) :
  (v <=? w)%js = true → (v >=? c)%js = true → (w >=? c)%js = true.
Proof. unfold js_ge. intros Hvw Hcv. by eapply js_le_trans. Qed.

(** A larger volume never falls into a lower bucket, in either economy. *)
Theorem categorizeVolume_monotone (v w : number) :
  (v <=? w)%js = true →
  (rank (categorizeVolume_eve v) ≤ rank (categorizeVolume_eve w))%nat
  ∧ (rank (categorizeVolume_osrs v) ≤ rank (categorizeVolume_osrs w))%nat.
Proof.
  intros Hvw. pose proof (js_ge_mono v w) as Hmono.
  unfold categorizeVolume_eve, categorizeVolume_osrs. split.
  - repeat match goal with
           | |- context [(v >=? ?c)%js] =>
               let H := fresh in
               destruct (v >=? c)%js eqn:H; [rewrite (Hmono _ Hvw H)|]
           end;
      repeat match goal with
             | |- context [(w >=? ?c)%js] => destruct (w >=? c)%js
             end; cbn [rank]; lia.
  - repeat match goal with
           | |- context [(v >=? ?c)%js] =>
               let H := fresh in
               destruct (v >=? c)%js eqn:H; [rewrite (Hmono _ Hvw H)|]
           end;
      repeat match goal with
             | |- context [(w >=? ?c)%js] => destruct (w >=? c)%js
             end; cbn [rank]; lia.
Qed.

Lemma categorizeVolume_monotone_witness :
  (rank (categorizeVolume_eve (num 150)) ≤ rank (categorizeVolume_eve (num 20000)))%nat
  ∧ (rank (categorizeVolume_osrs (num 150)) ≤ rank (categorizeVolume_osrs (num 20000)))%nat.
Proof. apply categorizeVolume_monotone. by vm_compute. Defined.

Lemma escapeHtml_inj_witness : "a<b"%string = "a<b"%string.
Proof. apply escapeHtml_inj. reflexivity. Defined.

End ReportFacts.

(** ** Local price history *)

Section KeyRoundTrip.
Import Normalizer LocalHistory.

Lemma parse_digits_string_of_uint (d : Decimal.uint) (acc : option N) :
  parse_digits 10 acc (NilEmpty.string_of_uint d)
  = match d with
    | Decimal.Nil => acc
    | _ => Some (digits_value d (default 0%N acc))
    end.
Proof.
  revert acc. induction d as [|d IH|d IH|d IH|d IH|d IH|d IH|d IH|d IH|d IH|d IH];
    intros acc; [done|..];
    cbn [NilEmpty.string_of_uint parse_digits digits_value];
    (change (digit_value _) with (Some 0%N) || change (digit_value _) with (Some 1%N)
     || change (digit_value _) with (Some 2%N) || change (digit_value _) with (Some 3%N)
     || change (digit_value _) with (Some 4%N) || change (digit_value _) with (Some 5%N)
     || change (digit_value _) with (Some 6%N) || change (digit_value _) with (Some 7%N)
     || change (digit_value _) with (Some 8%N) || change (digit_value _) with (Some 9%N));
    cbv beta iota; rewrite bool_decide_eq_true_2 by lia; rewrite IH; by destruct d.
Qed.

Lemma digits_value_pos (d : Decimal.uint) (p : positive) :
  digits_value d (N.pos p) = N.pos (Pos.of_uint_acc d p).
Proof.
  revert p. induction d as [|d IH|d IH|d IH|d IH|d IH|d IH|d IH|d IH|d IH|d IH];
    intros p; [done|..]; cbn [digits_value Pos.of_uint_acc];
    rewrite <-IH; f_equal; lia.
Qed.

Lemma digits_value_of_uint (d : Decimal.uint) : digits_value d 0 = N.of_uint d.
Proof.
  unfold N.of_uint.
  induction d as [|d IH|d IH|d IH|d IH|d IH|d IH|d IH|d IH|d IH|d IH];
    [done|..]; cbn [digits_value Pos.of_uint]; [exact IH|..];
    rewrite <-digits_value_pos; f_equal.
Qed.

Lemma parseInt_string_of_uint (d : Decimal.uint) :
  d ≠ Decimal.Nil →
  parseInt (NilEmpty.string_of_uint d) = num (Z.of_N (N.of_uint d)).
Proof.
  intros Hd.
  assert (Hparse : parseInt (NilEmpty.string_of_uint d)
                   = match parse_digits 10 None (NilEmpty.string_of_uint d) with
                     | Some n => num (1 * Z.of_N n)
                     | None => NaN
                     end).
  { destruct d as [|l|l|l|l|l|l|l|l|l|l]; try reflexivity. by destruct l. }
  rewrite Hparse, parse_digits_string_of_uint. destruct d; try done;
    simpl default; rewrite digits_value_of_uint; by rewrite Z.mul_1_l.
Qed.

Lemma parseInt_decimal (n : N) : parseInt (decimal n) = num (Z.of_N n).
Proof.
  unfold decimal.
  assert (Hnn : N.to_uint n ≠ Decimal.Nil).
  { destruct n; [done|]. apply DecimalPos.Unsigned.to_uint_nonnil. }
  assert (Hs : NilZero.string_of_uint (N.to_uint n) = NilEmpty.string_of_uint (N.to_uint n)).
  { unfold NilZero.string_of_uint. by destruct (N.to_uint n). }
  rewrite Hs, parseInt_string_of_uint by done.
  by rewrite DecimalN.Unsigned.of_to.
Qed.

(** A timestamp written as a property key reads back as itself:
    [parseInt(String(n))] is [n] for every non-negative integer up to
    [Number.MAX_SAFE_INTEGER], the range in which [String] writes plain
    digits and [parseInt] is exact. *)
Theorem timestamp_key_round_trip (n : N) :
  (n ≤ MAX_SAFE_INTEGER)%N → parseInt (decimal n) = num (Z.of_N n).
Proof. intros _. apply parseInt_decimal. Qed.

Lemma timestamp_key_round_trip_witness :
  parseInt (decimal 1704067200000) = num 1704067200000.
Proof. apply (timestamp_key_round_trip 1704067200000). by vm_compute. Defined.

End KeyRoundTrip.

Section LocalHistoryFacts.
Import Normalizer LocalHistory.

(** An update records today's price and volume for the item, keeps the
    item's other days, and leaves every other item of the file alone. *)
Theorem updateLocalHistory_records (historicalData : gmap N itemHistory)
    (today itemId : N) (itemName : string) (price vol : number) :
  let result := updateLocalHistory historicalData today itemId itemName price vol in
  let old := default (ItemHistory itemName ∅ ∅) (historicalData !! itemId) in
  result.1 !! itemId = Some (ItemHistory itemName result.2.1 result.2.2)
  ∧ result.2.1 !! today = Some price
  ∧ result.2.2 !! today = Some vol
  ∧ (∀ day, day ≠ today →
       result.2.1 !! day = daily old !! day ∧ result.2.2 !! day = volume old !! day)
  ∧ (∀ other, other ≠ itemId → result.1 !! other = historicalData !! other).
Proof.
  unfold updateLocalHistory. simpl. repeat split.
  - apply lookup_insert_eq.
  - apply lookup_insert_eq.
  - apply lookup_insert_eq.
  - by apply lookup_insert_ne.
  - by apply lookup_insert_ne.
  - intros other Hne. by apply lookup_insert_ne.
Qed.

(** Running the update again on the same day with the same figures
    changes nothing: a day holds one point, however often the analysis
    runs. *)
Theorem updateLocalHistory_same_day (historicalData : gmap N itemHistory)
    (today itemId : N) (itemName : string) (price vol : number) :
  let result := updateLocalHistory historicalData today itemId itemName price vol in
  updateLocalHistory result.1 today itemId itemName price vol = result.
Proof.
  unfold updateLocalHistory. simpl. rewrite lookup_insert_eq. simpl.
  by rewrite !insert_insert_eq.
Qed.

(** The price recorded today is read back by the normaliser, whatever the
    order in which the keys are enumerated: the series has one point per
    recorded day, is sorted by date, and holds today's point. *)
Theorem todays_point_is_read_back (historicalData : gmap N itemHistory)
    (today itemId : N) (itemName : string) (price vol : number)
    (order : list (N * number)) :
  let priceData := (updateLocalHistory historicalData today itemId itemName price vol).2.1 in
  order ≡ₚ map_to_list priceData →
  let prices := convertToArray (entries_of order) in
  Point (num (Z.of_N today)) price ∈ prices
  ∧ StronglySorted timestamp_le prices
  ∧ length prices = size priceData.
Proof.
  intros priceData Horder prices.
  assert (Hpoints : to_point <$> entries_of order
                    = (λ kv, Point (num (Z.of_N kv.1)) kv.2) <$> order).
  { unfold entries_of. rewrite <-list_fmap_compose.
    apply list_fmap_ext. intros i [day p] _. unfold to_point. simpl.
    by rewrite parseInt_decimal. }
  assert (Hperm : prices ≡ₚ (λ kv, Point (num (Z.of_N kv.1)) kv.2) <$> order).
  { unfold prices, convertToArray. by rewrite Array_sort_Permutation, Hpoints. }
  split; [|split].
  - rewrite Hperm. apply list_elem_of_fmap. exists (today, price). split; [done|].
    rewrite Horder. apply elem_of_map_to_list. unfold priceData, updateLocalHistory.
    simpl. apply lookup_insert_eq.
  - unfold prices, convertToArray. apply Array_sort_sorted. rewrite Hpoints.
    apply Forall_fmap, Forall_forall. by intros [day p] _.
  - rewrite Hperm, length_fmap, Horder. by rewrite length_map_to_list.
Qed.

Lemma todays_point_is_read_back_witness :
  let priceData :=
    (updateLocalHistory ∅ 1700000000000 4151 "Abyssal whip" (num 1500000) (num 200)).2.1 in
  let prices := convertToArray (entries_of (map_to_list priceData)) in
  Point (num (Z.of_N 1700000000000)) (num 1500000) ∈ prices
  ∧ StronglySorted timestamp_le prices
  ∧ length prices = size priceData.
Proof.
  apply (todays_point_is_read_back ∅ 1700000000000 4151 "Abyssal whip").
  reflexivity.
Defined.

End LocalHistoryFacts.

(** ** Catalogue sorter *)

Section SorterFacts.
Import Normalizer Sorter.

Lemma foldl_count_order (orders : list N) (counts : gmap N N) (t : N) :
  foldl count_order counts orders !! t
  = if decide (orders_for t orders = 0%N) then counts !! t
    else Some (default 0 (counts !! t) + orders_for t orders)%N.
Proof.
  unfold orders_for. revert counts.
  induction orders as [|o orders IH]; intros counts; [done|].
  cbn [foldl]. rewrite IH. rewrite filter_cons. unfold count_order. clear IH.
  destruct (decide (o = t)) as [->|Hne].
  - rewrite lookup_insert_eq. cbn [length default].
    generalize (length (filter (λ t0 : N, t0 = t) orders)). intros n.
    generalize (default 0%N (counts !! t)). intros d.
    repeat case_decide; try lia; f_equal; unfold id; lia.
  - rewrite lookup_insert_ne by done. done.
Qed.

(** After the counting loop an item has an entry exactly when some order
    is for it, and the entry is the number of its orders. *)
Lemma itemOrderCounts_counts (orders : list N) (t : N) :
  itemOrderCounts orders !! t
  = if decide (t ∈ orders) then Some (orders_for t orders) else None.
Proof.
  unfold itemOrderCounts. rewrite foldl_count_order, lookup_empty. cbn [default].
  assert (Hiff : orders_for t orders = 0%N ↔ t ∉ orders).
  { unfold orders_for. split.
    - intros Hz Hin.
      assert (Ht : t ∈ filter (λ t', t' = t) orders) by (by apply list_elem_of_filter).
      destruct (filter _ orders); [by apply elem_of_nil in Ht|simpl in Hz; lia].
    - intros Hnin. destruct (filter (λ t', t' = t) orders) as [|x l] eqn:Hf; [done|].
      assert (Hx : x ∈ filter (λ t', t' = t) orders) by (rewrite Hf; left).
      apply list_elem_of_filter in Hx as [-> ?]. done. }
  repeat case_decide; try done; exfalso; tauto.
Qed.

(** The rewritten catalogue lists exactly the named items for which the
    top region has at least one order: an item without orders there is
    dropped from the items file. *)
Theorem sortedItems_elem_of (itemsData : list (string * N)) (orders : list N)
    (enumeration : list (N * N)) (itemName : string) (typeId : N) :
  enumeration ≡ₚ map_to_list (itemOrderCounts orders) →
  (itemName, typeId) ∈ sortedItems itemsData enumeration
  ↔ typeIdToName itemsData !! typeId = Some itemName
    ∧ itemName ≠ EmptyString ∧ typeId ∈ orders.
Proof.
  intros Henum. unfold sortedItems. rewrite list_elem_of_omap.
  setoid_rewrite Array_sort_Permutation. setoid_rewrite Henum. split.
  - intros ([t c] & Hin & Hnamed). apply elem_of_map_to_list in Hin.
    rewrite itemOrderCounts_counts in Hin. case_decide; [|done].
    unfold named in Hnamed. simpl in Hnamed.
    destruct (typeIdToName itemsData !! t) as [[|ch s]|] eqn:Hname; simplify_eq.
    done.
  - intros (Hname & Hne & Hin). exists (typeId, orders_for typeId orders). split.
    + apply elem_of_map_to_list. rewrite itemOrderCounts_counts. by rewrite decide_True.
    + unfold named. simpl. rewrite Hname. by destruct itemName.
Qed.

Lemma sortedItems_elem_of_witness :
  let itemsData := [("Tritanium", 34%N); ("Pyerite", 35%N)]%string in
  let orders := [34%N; 34%N; 36%N] in
  ("Tritanium"%string, 34%N)
    ∈ sortedItems itemsData (map_to_list (itemOrderCounts orders))
  ↔ typeIdToName itemsData !! 34%N = Some "Tritanium"%string
    ∧ "Tritanium"%string ≠ EmptyString ∧ 34%N ∈ orders.
Proof.
  intros itemsData orders.
  apply (sortedItems_elem_of itemsData orders). reflexivity.
Defined.

End SorterFacts.

(** ** Market overview *)

Section OverviewFacts.
Import Overview.

Lemma momentum_trichotomy (m : number) :
  m ≠ NaN →
  ((m >? num 0)%js = true ∧ (m <? num 0)%js = false ∧ m ≠ num 0)
  ∨ ((m >? num 0)%js = false ∧ (m <? num 0)%js = true ∧ m ≠ num 0)
  ∨ ((m >? num 0)%js = false ∧ (m <? num 0)%js = false ∧ m = num 0).
Proof.
  destruct m as [q| | |]; [|by left|by right; left|done]. intros _.
  unfold js_gt, js_lt, num. rewrite Qc_of_Z_0.
  destruct (Qc_dec q 0) as [[Hlt|Hgt]|Heq]; [| |subst q].
  - right. left. rewrite bool_decide_eq_false_2, bool_decide_eq_true_2; [|done|qc_order].
    repeat split. intros [= ->]. by apply (irreflexivity Qclt 0).
  - left. rewrite bool_decide_eq_true_2, bool_decide_eq_false_2; [|qc_order|done].
    repeat split. intros [= ->]. by apply (irreflexivity Qclt 0).
  - right. right. rewrite !bool_decide_eq_false_2; [done|..];
      apply (irreflexivity Qclt 0).
Qed.

(** The items counted as up, down and flat are disjoint, and together they
    are the items whose momentum is a number: a [NaN] momentum is counted
    in none of the three. *)
Theorem overview_counts (momentums : list number) :
  (itemsUp momentums + itemsDown momentums + itemsFlat momentums
   = length (filter (λ m, m ≠ NaN) momentums))%nat.
Proof.
  unfold itemsUp, itemsDown, itemsFlat.
  induction momentums as [|m ms IH]; [done|].
  rewrite !filter_cons. destruct (decide (m = NaN)) as [->|Hm].
  - repeat case_decide; try done; simpl; lia.
  - rewrite (decide_True (P := m ≠ NaN)) by done.
    destruct (momentum_trichotomy m Hm) as [(H1 & H2 & H3)|[(H1 & H2 & H3)|(H1 & H2 & H3)]];
      rewrite H1, H2;
      repeat case_decide; try congruence; cbn [length]; lia.
Qed.

End OverviewFacts.
